(** * git-password: a shallow embedding of [main.c]

    [main.c] is the whole program: an askpass helper that git runs to
    obtain a username or a password for the remote of the current
    repository.  It checks that one of its ancestors is git, derives a
    key from [remote.origin.url], and answers from the macOS keychain,
    asking on the terminal and creating the keychain item when there is
    none.

    Conventions of the embedding.
    - A C string ([char *] to a NUL-terminated buffer) is a [string];
      the strings handled here hold no NUL character.  A [char *] that
      may be [NULL] or was never assigned is an [option string].
    - [pid_t], [OSStatus] and [int] values are [Z]; the program only
      compares them for equality, so no wrap-around is involved.
    - The operating system is a record of oracles ([world]); the mutable
      part of a run (keychain content, what was written to the two
      output streams, the calls made so far) is a [state] threaded
      through a small monad whose outcomes are: the function returned,
      the process called [exit], the behaviour is undefined in C, or the
      fuel given to the one unbounded loop ran out.
    - A [FILE *] is an [option FILE]: [None] is [NULL].  [main] opens
      its one stream on file descriptor 2 with [fdopen (2, "r+")] and
      never tests the result; [fputs] on [NULL] is undefined.
    - [malloc] and [asprintf] are taken to return a block, so that the
      three exits of [is_git_calling_us] and [git_config] that follow a
      failed allocation are not in the model, and no string is so long
      that [len] truncates its length to 32 bits.
    - A store past the end of a [malloc] block is undefined in C.  The
      model keeps one fact about the allocator, how many bytes after a
      block of a given size belong to no other object: a store that
      lands there goes unnoticed, any other one is an outcome
      [Undefined].
    - The Security framework is outside the program.  Its keychain is
      modelled as the list of the generic-password items in the order
      in which they were added: a lookup by service name answers with
      the first item of that service or with [errSecItemNotFound]; a
      create appends its item unless an item of the same service and
      account is there, which gives [errSecDuplicateItem]; any call may
      instead report an error status chosen by the world. *)

From Stdlib Require Import ZArith List String Ascii Bool Lia.
Import ListNotations.

Local Open Scope string_scope.

(** ** C strings *)

Module CString.

Definition strlen (s : string) : nat := String.length s.

(** [s + n]: the string that starts [n] characters into [s]. *)
Fixpoint offset (n : nat) (s : string) : string :=
  match n, s with
  | O, _ => s
  | S _, EmptyString => EmptyString
  | S n', String _ t => offset n' t
  end.

(** The first [n] characters of [s]: what [s] reads as after
    [s[n] = 0]. *)
Fixpoint truncate (n : nat) (s : string) : string :=
  match n, s with
  | O, _ => EmptyString
  | S _, EmptyString => EmptyString
  | S n', String a t => String a (truncate n' t)
  end.

(** [strchr (s, c)] as the index of the first [c] in [s]; [None] for
    the [NULL] result. *)
Fixpoint strchr (s : string) (c : ascii) : option nat :=
  match s with
  | EmptyString => None
  | String a t =>
      if Ascii.eqb a c then Some O
      else match strchr t c with
           | Some i => Some (S i)
           | None => None
           end
  end.

(** [strcmp (a, b) == 0]. *)
Definition streq (a b : string) : bool := String.eqb a b.

(** The last character of a non-empty string. *)
Fixpoint last_char (s : string) : option ascii :=
  match s with
  | EmptyString => None
  | String a EmptyString => Some a
  | String _ t => last_char t
  end.

Definition newline : ascii := "010"%char.
Definition slash : ascii := "/"%char.

End CString.
Import CString.

(** ** Repository key: [trim_repository] (main.c, 239-252) *)

Definition https_prefix : string := "https://".

(** [first_slash] is kept as an index into [repository]. *)
Definition first_slash (repository : string) : option nat :=
  if Nat.ltb (strlen https_prefix) (strlen repository) then
    match strchr (offset (strlen https_prefix) repository) slash with
    | Some i => Some (strlen https_prefix + i)
    | None => None
    end
  else None.

Definition trim_repository (repository : string) : string :=
  match first_slash repository with
  | Some i => truncate (i + 1) repository
  | None => repository
  end.

(** [trim_trailing_whitespace] (main.c, 62-70): the string as it reads
    after the call.  On the empty string the C code reads
    [string[-1]], a byte before the string, and may write it: [None]. *)
Definition trim_trailing_whitespace (s : string) : option string :=
  match last_char s with
  | Some c =>
      Some (if Ascii.eqb c newline then truncate (strlen s - 1) s else s)
  | None => None
  end.

(** [fgets (buffer, n, stream)] on a stream that still holds [input]:
    at most [n - 1] characters, stopping after the first newline;
    [None] is the [NULL] result at end of file, which leaves the buffer
    as it was. *)
Fixpoint read_line (n : nat) (input : string) : string :=
  match n, input with
  | O, _ => EmptyString
  | S _, EmptyString => EmptyString
  | S n', String a t =>
      if Ascii.eqb a newline then String a EmptyString
      else String a (read_line n' t)
  end.

Definition fgets (n : nat) (input : string) : option string :=
  match input with
  | EmptyString => None
  | String _ _ => Some (read_line (n - 1) input)
  end.

(** ** The operating system *)

(** The fields of [struct kinfo_proc] that the program reads. *)
Record extern_proc := { p_pid : Z; p_comm : string }.
Record eproc := { e_ppid : Z }.
Record kinfo_proc := { kp_proc : extern_proc; kp_eproc : eproc }.

(** [OSStatus] and the three result codes of [SecBase.h] that matter
    here, with the values the header gives them. *)
Definition OSStatus := Z.
Definition errSecSuccess : OSStatus := 0%Z.
Definition errSecItemNotFound : OSStatus := (-25300)%Z.
Definition errSecDuplicateItem : OSStatus := (-25299)%Z.

Inductive SecItemAttr :=
| kSecLabelItemAttr
| kSecDescriptionItemAttr
| kSecAccountItemAttr
| kSecServiceItemAttr.

Definition SecItemAttr_eqb (a b : SecItemAttr) : bool :=
  match a, b with
  | kSecLabelItemAttr, kSecLabelItemAttr
  | kSecDescriptionItemAttr, kSecDescriptionItemAttr
  | kSecAccountItemAttr, kSecAccountItemAttr
  | kSecServiceItemAttr, kSecServiceItemAttr => true
  | _, _ => false
  end.

(** [SecKeychainAttribute]: [length] is the length of [data]. *)
Record SecKeychainAttribute := { tag : SecItemAttr; data : string }.

(** A generic-password item of the keychain: its attributes and the
    secret stored with them. *)
Record SecKeychainItem := {
  item_attr : list SecKeychainAttribute;
  item_data : string
}.

Fixpoint attribute (t : SecItemAttr) (l : list SecKeychainAttribute)
  : option string :=
  match l with
  | [] => None
  | a :: rest => if SecItemAttr_eqb (tag a) t then Some (data a)
                 else attribute t rest
  end.

Definition item_service (it : SecKeychainItem) : option string :=
  attribute kSecServiceItemAttr (item_attr it).
Definition item_account (it : SecKeychainItem) : option string :=
  attribute kSecAccountItemAttr (item_attr it).

Definition option_streq (a : option string) (b : string) : bool :=
  match a with
  | Some x => streq x b
  | None => false
  end.

(** The four Security framework calls of the program. *)
Inductive sec_call :=
| FindGenericPassword
| AttributeInfoForItemID
| ItemCopyAttributesAndData
| ItemCreateFromContent.

(** [FILE].  The program has one stream, the one that [main] opens on
    file descriptor 2. *)
Inductive FILE := stream_2.

(** What a run cannot control.  Every oracle is a function of what the
    program passes to the call, and of how many such calls came before
    where the answer may change from one call to the next. *)
Record world := {
  (** [getppid ()] *)
  os_getppid : Z;
  (** [sysctl] on [KERN_PROC_ALL] without a buffer: did it succeed *)
  os_proc_all_size : bool;
  (** [sysctl] on [KERN_PROC_ALL] with the buffer: the table copied *)
  os_proc_all : option (list kinfo_proc);
  (** [sysctl] on [KERN_PROC_PID]: the record of a pid in the live
      process table at the n-th such read *)
  os_proc_pid : nat -> Z -> option kinfo_proc;
  (** [popen (command)], then [pclose]: what the child writes and the
      status [pclose] reports; [None] when [popen] fails *)
  os_popen : string -> option (string * Z);
  (** [getpass]: what is typed at the n-th prompt *)
  os_getpass : nat -> string;
  (** [fdopen (2, "r+")]: the stream, or [None] for [NULL] when
      descriptor 2 is closed or is not open for reading and writing *)
  os_fdopen : option FILE;
  (** [malloc (n)]: the bytes that follow the [n] bytes of the block and
      belong to no other object *)
  os_malloc_slack : nat -> nat;
  (** an error status that a Security call reports whatever the
      keychain holds (locked keychain, denied access, ...) *)
  sec_fault : sec_call -> option OSStatus;
  (** items that another process adds to the keychain between the
      lookup of this run and its create *)
  sec_concurrent : list SecKeychainItem;
  (** [SecCopyErrorMessageString], read as a C string *)
  sec_message : OSStatus -> string
}.

(** The calls a run makes to its collaborators, in order. *)
Inductive call :=
| Getppid
| SysctlProcAll (with_buffer : bool)
| SysctlProcPid (pid : Z)
| Popen (command : string)
| Getpass (prompt : string)
| SecFind (service : string)
| SecAttributeInfo
| SecCopy (with_data : bool)
| SecCreate (attributes : list SecKeychainAttribute) (password : string).

Definition is_trust_call (c : call) : bool :=
  match c with
  | Getppid | SysctlProcAll _ | SysctlProcPid _ => true
  | _ => false
  end.

Definition is_store_call (c : call) : bool :=
  match c with
  | SecFind _ | SecAttributeInfo | SecCopy _ | SecCreate _ _ => true
  | _ => false
  end.

Definition is_prompt_call (c : call) : bool :=
  match c with
  | Getpass _ => true
  | _ => false
  end.

Record state := {
  keychain : list SecKeychainItem;
  stdout : string;
  stderr : string;
  calls : list call;
  pid_reads : nat;
  prompts : nat
}.

Definition start (kc : list SecKeychainItem) : state :=
  {| keychain := kc; stdout := EmptyString; stderr := EmptyString;
     calls := []; pid_reads := 0; prompts := 0 |}.

Definition log (c : call) (s : state) : state :=
  {| keychain := keychain s; stdout := stdout s; stderr := stderr s;
     calls := calls s ++ [c]; pid_reads := pid_reads s;
     prompts := prompts s |}.

(** ** Outcomes and the monad of the program *)

Inductive outcome (A : Type) :=
| Returned (a : A) (s : state)
| Exited (status : Z) (s : state)
| Undefined (s : state)
| OutOfFuel.
Arguments Returned {A} a s.
Arguments Exited {A} status s.
Arguments Undefined {A} s.
Arguments OutOfFuel {A}.

Definition M (A : Type) : Type := state -> outcome A.

Definition ret {A} (a : A) : M A := fun s => Returned a s.

Definition bind {A B} (c : M A) (k : A -> M B) : M B :=
  fun s =>
    match c s with
    | Returned a s' => k a s'
    | Exited st s' => Exited st s'
    | Undefined s' => Undefined s'
    | OutOfFuel => OutOfFuel
    end.

Notation "x <- c ;; k" := (bind c (fun x => k))
  (at level 61, c at next level, right associativity).
Notation "c ;;; k" := (bind c (fun _ => k))
  (at level 61, right associativity).

Definition undefined {A} : M A := fun s => Undefined s.

(** The state a run ends in, or the state in which its behaviour
    stops being defined; none while the loop is short of fuel. *)
Definition final {A} (o : outcome A) : option state :=
  match o with
  | Returned _ s | Exited _ s | Undefined s => Some s
  | OutOfFuel => None
  end.

(** The state in which a run returns or exits. *)
Definition finished {A} (o : outcome A) : option state :=
  match o with
  | Returned _ s | Exited _ s => Some s
  | Undefined _ | OutOfFuel => None
  end.

(** The status a parent reads from [wait] after [exit (status)]. *)
Definition wait_status (status : Z) : Z := Z.land status 255.

Definition nl : string := String newline EmptyString.

(** [fputs (text, stream)]; what is written to the stream on descriptor
    2 is collected in [stderr]. *)
Definition fputs (text : string) (stream : option FILE) : M unit :=
  match stream with
  | Some stream_2 =>
      fun s => Returned tt
        {| keychain := keychain s; stdout := stdout s;
           stderr := stderr s ++ text; calls := calls s;
           pid_reads := pid_reads s; prompts := prompts s |}
  | None => undefined
  end.

Definition printf_s (text : string) : M unit :=
  fun s => Returned tt
    {| keychain := keychain s; stdout := stdout s ++ text;
       stderr := stderr s; calls := calls s;
       pid_reads := pid_reads s; prompts := prompts s |}.

Definition exit {A} (status : Z) : M A := fun s => Exited status s.

(** [fatal] (main.c, 37-43). *)
Definition fatal {A} (message : string) (terminal : option FILE) : M A :=
  fputs ("fatal: " ++ message ++ nl) terminal ;;; exit (-1).

(** [security_fatal] and [security] (main.c, 45-55). *)
Section Program.

Variable w : world.
Variable terminal : option FILE.

Definition security_fatal {A} (status : OSStatus) : M A :=
  fatal (sec_message w status) terminal.

Definition security (status : OSStatus) : M unit :=
  if negb (status =? 0)%Z then security_fatal status else ret tt.

(** ** Caller trust: [is_git_calling_us] (main.c, 72-113) *)

Definition getppid : M Z :=
  fun s => Returned (os_getppid w) (log Getppid s).

(** The first [sysctl], which asks for the size of the table. *)
Definition sysctl_proc_all_size : M bool :=
  fun s => Returned (os_proc_all_size w) (log (SysctlProcAll false) s).

(** The second [sysctl], which fills [processes]. *)
Definition sysctl_proc_all : M (option (list kinfo_proc)) :=
  fun s => Returned (os_proc_all w) (log (SysctlProcAll true) s).

(** The [sysctl] of the loop body, on [KERN_PROC_PID]. *)
Definition sysctl_proc_pid (pid : Z) : M (option kinfo_proc) :=
  fun s =>
    let s' := log (SysctlProcPid pid) s in
    Returned (os_proc_pid w (pid_reads s) pid)
      {| keychain := keychain s'; stdout := stdout s'; stderr := stderr s';
         calls := calls s'; pid_reads := S (pid_reads s');
         prompts := prompts s' |}.

(** The [for] loop (main.c, 89-105): the first entry of [processes]
    whose [p_pid] is [parent_pid]; [None] leaves [found] at 0. *)
Fixpoint scan (processes : list kinfo_proc) (parent_pid : Z)
  : option extern_proc :=
  match processes with
  | [] => None
  | entry :: rest =>
      let process := kp_proc entry in
      if (parent_pid =? p_pid process)%Z then Some process
      else scan rest parent_pid
  end.

(** The [while] loop (main.c, 86-110); [fuel] bounds its iterations. *)
Fixpoint walk (fuel : nat) (processes : list kinfo_proc) (parent_pid : Z)
  : M bool :=
  if ((parent_pid =? 0) || (parent_pid =? 1))%Z then ret false
  else
    match fuel with
    | O => fun _ => OutOfFuel
    | S fuel' =>
        match scan processes parent_pid with
        | None => ret false
        | Some process =>
            info <- sysctl_proc_pid parent_pid ;;
            match info with
            | None => fatal "sysctl PROC_PID failed" terminal
            | Some info =>
                if streq (p_comm process) "git" then ret true
                else walk fuel' processes (e_ppid (kp_eproc info))
            end
        end
    end.

Definition is_git_calling_us (fuel : nat) : M bool :=
  parent_pid <- getppid ;;
  ok <- sysctl_proc_all_size ;;
  if negb ok then fatal "sysctl failed" terminal
  else
    processes <- sysctl_proc_all ;;
    match processes with
    | None => fatal "sysctl failed" terminal
    | Some processes => walk fuel processes parent_pid
    end.

(** ** Remote URL: [git_config], [git_origin_url] (main.c, 115-141) *)

Definition popen (command : string) : M (option (string * Z)) :=
  fun s => Returned (os_popen w command) (log (Popen command) s).

Definition git_config (key : string) : M string :=
  let command := "git config " ++ key in
  pipe <- popen command ;;
  match pipe with
  | None => fatal "popen failed" terminal
  | Some (output, status) =>
      let buffer := fgets 1024 output in
      if negb (status =? 0)%Z then fatal "reading from git failed" terminal
      else
        match buffer with
        | None => undefined
        | Some result =>
            match trim_trailing_whitespace result with
            | Some result => ret result
            | None => undefined
            end
        end
  end.

Definition git_origin_url : M string := git_config "remote.origin.url".

(** ** The keychain *)

(** A fault of the world is an error status; status 0 injects nothing. *)
Definition injected (c : sec_call) : option OSStatus :=
  match sec_fault w c with
  | Some status => if (status =? 0)%Z then None else Some status
  | None => None
  end.

Fixpoint first_of_service (service : string) (kc : list SecKeychainItem)
  : option SecKeychainItem :=
  match kc with
  | [] => None
  | it :: rest =>
      if option_streq (item_service it) service then Some it
      else first_of_service service rest
  end.

(** [SecKeychainFindGenericPassword] with a service name and no account
    name: the status and, on success, the item. *)
Definition SecKeychainFindGenericPassword (service : string)
  : M (OSStatus * option SecKeychainItem) :=
  fun s =>
    let s' := log (SecFind service) s in
    match injected FindGenericPassword with
    | Some status => Returned (status, None) s'
    | None =>
        match first_of_service service (keychain s) with
        | Some it => Returned (errSecSuccess, Some it) s'
        | None => Returned (errSecItemNotFound, None) s'
        end
    end.

Definition SecKeychainAttributeInfoForItemID : M OSStatus :=
  fun s =>
    let s' := log SecAttributeInfo s in
    match injected AttributeInfoForItemID with
    | Some status => Returned status s'
    | None => Returned errSecSuccess s'
    end.

(** [SecKeychainItemCopyAttributesAndData]: the status, the attributes
    and, when the caller passes [&password], the secret. *)
Definition SecKeychainItemCopyAttributesAndData
  (item : SecKeychainItem) (with_data : bool)
  : M (OSStatus * list SecKeychainAttribute * option string) :=
  fun s =>
    let s' := log (SecCopy with_data) s in
    match injected ItemCopyAttributesAndData with
    | Some status => Returned (status, [], None) s'
    | None =>
        Returned (errSecSuccess, item_attr item,
                  if with_data then Some (item_data item) else None) s'
    end.

(** Two generic-password items cannot share service and account. *)
Definition same_identity (a b : SecKeychainItem) : bool :=
  match item_service a, item_service b, item_account a, item_account b with
  | Some sa, Some sb, Some aa, Some ab => streq sa sb && streq aa ab
  | _, _, _, _ => false
  end.

(** [SecKeychainItemCreateFromContent].  The keychain it meets is the
    one of the lookup plus what other processes added since. *)
Definition SecKeychainItemCreateFromContent
  (attributes : list SecKeychainAttribute) (password : string) : M OSStatus :=
  fun s =>
    let s' := log (SecCreate attributes password) s in
    let now := (keychain s ++ sec_concurrent w)%list in
    let it := {| item_attr := attributes; item_data := password |} in
    let put kc :=
      {| keychain := kc; stdout := stdout s'; stderr := stderr s';
         calls := calls s'; pid_reads := pid_reads s';
         prompts := prompts s' |} in
    match injected ItemCreateFromContent with
    | Some status => Returned status (put now)
    | None =>
        if existsb (same_identity it) now
        then Returned errSecDuplicateItem (put now)
        else Returned errSecSuccess (put (now ++ [it])%list)
    end.

(** [struct KeyChainItem] (main.c, 143-148).  [username] is [None] while
    the field was never assigned; [password] is [None] for [NULL]. *)
Record KeyChainItem := {
  username : option string;
  password : option string
}.

(** The loop over [attributes->attr] (main.c, 173-183). *)
Fixpoint account_of (attributes : list SecKeychainAttribute)
  (username : option string) : option string :=
  match attributes with
  | [] => username
  | attribute :: rest =>
      if SecItemAttr_eqb (tag attribute) kSecAccountItemAttr
      then account_of rest (Some (data attribute))
      else account_of rest username
  end.

(** [find_keychain_item] (main.c, 150-211). *)
Definition find_keychain_item (repository : string) (include_password : bool)
  : M (option KeyChainItem) :=
  found <- SecKeychainFindGenericPassword repository ;;
  let '(status, item) := found in
  if (status =? errSecSuccess)%Z then
    match item with
    | None => undefined
    | Some item =>
        st <- SecKeychainAttributeInfoForItemID ;;
        security st ;;;
        copied <- SecKeychainItemCopyAttributesAndData item include_password ;;
        let '(st, attributes, secret) := copied in
        security st ;;;
        ret (Some {| username := account_of attributes None;
                     password := if include_password then secret else None |})
    end
  else if (status =? errSecItemNotFound)%Z then ret None
  else security status ;;; ret None.

(** [create_keychain_item] (main.c, 213-226). *)
Definition create_keychain_item (repository username password : string)
  : M unit :=
  let attributes :=
    [ {| tag := kSecLabelItemAttr; data := repository |};
      {| tag := kSecDescriptionItemAttr; data := "git repository password" |};
      {| tag := kSecAccountItemAttr; data := username |};
      {| tag := kSecServiceItemAttr; data := repository |} ] in
  st <- SecKeychainItemCreateFromContent attributes password ;;
  security st.

(** [getpass (prompt)]: what is typed at this prompt. *)
Definition getpass (text : string) : M string :=
  fun s =>
    let s' := log (Getpass text) s in
    Returned (os_getpass w (prompts s))
      {| keychain := keychain s'; stdout := stdout s'; stderr := stderr s';
         calls := calls s'; pid_reads := pid_reads s';
         prompts := S (prompts s') |}.

(** A store of one byte at [index] of a block that [malloc (size)]
    returned: into the block, or into the bytes after it that belong to
    no other object; anywhere else the run is not followed further. *)
Definition store (size index : nat) : M unit :=
  if Nat.ltb index (size + os_malloc_slack w size) then ret tt
  else undefined.

(** [prompt] (main.c, 228-237).  [strncpy] copies [temp] with its NUL
    into the [strlen (temp) + 1] bytes of [value]; the store that
    follows is to [value[strlen (temp) + 1]], one byte past the block,
    and what [value] reads as is the copy of [temp]. *)
Definition prompt (text : string) : M string :=
  temp <- getpass text ;;
  let size := strlen temp + 1 in
  let value := temp in
  store size (strlen temp + 1) ;;;
  ret value.

(** ** The resolver: [get_username], [get_password] (main.c, 255-290) *)

Definition get_username : M (option string) :=
  url <- git_origin_url ;;
  let repository := trim_repository url in
  item <- find_keychain_item repository false ;;
  match item with
  | Some item => ret (username item)
  | None =>
      username <- prompt "Username: " ;;
      password <- prompt "Password: " ;;
      create_keychain_item repository username password ;;;
      ret (Some username)
  end.

Definition get_password : M (option string) :=
  url <- git_origin_url ;;
  let repository := trim_repository url in
  item <- find_keychain_item repository true ;;
  match item with
  | Some item => ret (password item)
  | None =>
      password <- prompt "Password: " ;;
      create_keychain_item repository EmptyString password ;;;
      ret (Some password)
  end.

(** [printf ("%s", p)]: undefined when [p] does not point to a string. *)
Definition printf (p : option string) : M unit :=
  match p with
  | Some text => printf_s text
  | None => undefined
  end.

End Program.

(** [fdopen (2, "r+")]. *)
Definition fdopen (w : world) : M (option FILE) := ret (os_fdopen w).

(** [main] (main.c, 292-308); [argc] is the length of [argv]. *)
Definition main (w : world) (fuel : nat) (argv : list string) : M Z :=
  terminal <- fdopen w ;;
  ok <- is_git_calling_us w terminal fuel ;;
  if negb ok then fatal "can only be used by git" terminal
  else if negb (List.length argv =? 2)%nat then
    fatal "can only be used by git" terminal
  else if streq (nth 1 argv EmptyString) "Username: " then
    value <- get_username w terminal ;; printf value ;;; ret 0%Z
  else if streq (nth 1 argv EmptyString) "Password: " then
    value <- get_password w terminal ;; printf value ;;; ret 0%Z
  else fatal "can only be used by git" terminal.

(** The request of an invocation, as [main] reads it from [argv[1]]. *)
Inductive purpose := Username | Password.

Definition resolve (w : world) (terminal : option FILE) (p : purpose)
  : M (option string) :=
  match p with
  | Username => get_username w terminal
  | Password => get_password w terminal
  end.

(** The literal that selects a purpose (main.c, 300 and 302). *)
Definition purpose_arg (p : purpose) : string :=
  match p with
  | Username => "Username: "
  | Password => "Password: "
  end.

(** ** Vocabulary of the statements *)

(** A remote URL by its parts: scheme, host, and the path that follows
    the first separator after the host. *)
Definition url (scheme host path : string) : string :=
  (scheme ++ "://" ++ host) ++ "/" ++ path.

(** The loop condition fails on these two pids. *)
Definition stops (pid : Z) : bool := ((pid =? 0) || (pid =? 1))%Z.




(** An outcome without its state. *)
Inductive verdict (A : Type) :=
| Answers (a : A)
| Exits (status : Z)
| Undefines
| Unfinished.
Arguments Answers {A} a.
Arguments Exits {A} status.
Arguments Undefines {A}.
Arguments Unfinished {A}.

Definition verdict_of {A} (o : outcome A) : verdict A :=
  match o with
  | Returned a _ => Answers a
  | Exited status _ => Exits status
  | Undefined _ => Undefines
  | OutOfFuel => Unfinished
  end.

(** The parent pid that a read on [KERN_PROC_PID] reports. *)
Definition read_parent (w : world) (n : nat) (pid : Z) : option Z :=
  match os_proc_pid w n pid with
  | Some info => Some (e_ppid (kp_eproc info))
  | None => None
  end.

(** The parent link that the table itself records for [pid]. *)
Fixpoint table_parent (processes : list kinfo_proc) (pid : Z) : option Z :=
  match processes with
  | [] => None
  | entry :: rest =>
      if (pid =? p_pid (kp_proc entry))%Z then Some (e_ppid (kp_eproc entry))
      else table_parent rest pid
  end.

(** Following the links of the table from [pid] reaches pid 0, pid 1 or
    a pid that the table does not hold. *)
Inductive reaches_end (processes : list kinfo_proc) : Z -> Prop :=
| end_zero : reaches_end processes 0%Z
| end_root : reaches_end processes 1%Z
| end_absent pid :
    table_parent processes pid = None -> reaches_end processes pid
| end_link pid ppid :
    table_parent processes pid = Some ppid ->
    reaches_end processes ppid ->
    reaches_end processes pid.

(** The state after one read on [KERN_PROC_PID]. *)
Definition after_read (pid : Z) (s : state) : state :=
  {| keychain := keychain s; stdout := stdout s; stderr := stderr s;
     calls := calls s ++ [SysctlProcPid pid]; pid_reads := S (pid_reads s);
     prompts := prompts s |}.

(** The state in which [is_git_calling_us] enters its loop. *)
Definition after_snapshot (s : state) : state :=
  log (SysctlProcAll true) (log (SysctlProcAll false) (log Getppid s)).

(** [s'] comes after [s] by calls of the verifier alone: nothing was
    stored, asked or printed. *)
Definition quiet (s s' : state) : Prop :=
  keychain s' = keychain s
  /\ stdout s' = stdout s
  /\ prompts s' = prompts s
  /\ exists l, calls s' = (calls s ++ l)%list /\ forallb is_trust_call l = true.

(** What an outcome of the verifier started in [s] looks like. *)
Definition trust_frame {A} (s : state) (o : outcome A) : Prop :=
  match o with
  | Returned _ s' | Undefined s' => quiet s s' /\ stderr s' = stderr s
  | Exited status s' =>
      quiet s s' /\ status = (-1)%Z
      /\ exists message, stderr s' = stderr s ++ "fatal: " ++ message ++ nl
  | OutOfFuel => True
  end.

(** [s'] comes after [s]: the calls made up to [s] are still the first
    calls of [s'], and the items that the keychain held in [s] are
    still its first items, as they were. *)
Definition grows (s s' : state) : Prop :=
  (exists l, calls s' = (calls s ++ l)%list)
  /\ (exists k, keychain s' = (keychain s ++ k)%list).

(** Every run of [c] ends, without any need of fuel, in a state related
    by [R] to its start. *)
Definition steps (R : state -> state -> Prop) {A} (c : M A) : Prop :=
  forall s,
    match c s with
    | Returned _ s' | Exited _ s' | Undefined s' => R s s'
    | OutOfFuel => False
    end.

(** The command lines that [main] refuses (main.c, 298-305). *)
Definition bad_usage (argv : list string) : bool :=
  negb (List.length argv =? 2)%nat
  || negb (streq (nth 1 argv EmptyString) "Username: "
           || streq (nth 1 argv EmptyString) "Password: ").

(** What [main] does once the verifier has answered true (main.c,
    298-307). *)
Definition dispatch (w : world) (terminal : option FILE)
  (argv : list string) : M Z :=
  if negb (List.length argv =? 2)%nat then
    fatal "can only be used by git" terminal
  else if streq (nth 1 argv EmptyString) "Username: " then
    value <- get_username w terminal ;; printf value ;;; ret 0%Z
  else if streq (nth 1 argv EmptyString) "Password: " then
    value <- get_password w terminal ;; printf value ;;; ret 0%Z
  else fatal "can only be used by git" terminal.

(** The command that [git_origin_url] runs. *)
Definition config_command : string := "git config remote.origin.url".

(** The key under which a run in [w] looks its credential up: what
    [trim_repository (git_origin_url ())] evaluates to; [None] when
    [git_origin_url] does not return. *)
Definition repository_of (w : world) : option string :=
  match os_popen w config_command with
  | Some (output, status) =>
      if (status =? 0)%Z then
        match fgets 1024 output with
        | Some line =>
            option_map trim_repository (trim_trailing_whitespace line)
        | None => None
        end
      else None
  | None => None
  end.

(** The status that the lookup of [service] reports on keychain [kc]. *)
Definition find_status (w : world) (service : string)
  (kc : list SecKeychainItem) : OSStatus :=
  match injected w FindGenericPassword with
  | Some status => status
  | None =>
      match first_of_service service kc with
      | Some _ => errSecSuccess
      | None => errSecItemNotFound
      end
  end.

(** The item that [create_keychain_item] asks the keychain to hold. *)
Definition new_attributes (repository username : string)
  : list SecKeychainAttribute :=
  [ {| tag := kSecLabelItemAttr; data := repository |};
    {| tag := kSecDescriptionItemAttr; data := "git repository password" |};
    {| tag := kSecAccountItemAttr; data := username |};
    {| tag := kSecServiceItemAttr; data := repository |} ].

Definition new_item (repository username password : string)
  : SecKeychainItem :=
  {| item_attr := new_attributes repository username;
     item_data := password |}.

(** The status that the create of [it] reports when the lookup ran on
    keychain [kc]. *)
Definition create_status (w : world) (kc : list SecKeychainItem)
  (it : SecKeychainItem) : OSStatus :=
  match injected w ItemCreateFromContent with
  | Some status => status
  | None =>
      if existsb (same_identity it) (kc ++ sec_concurrent w)
      then errSecDuplicateItem
      else errSecSuccess
  end.

Definition is_create_call (c : call) : bool :=
  match c with
  | SecCreate _ _ => true
  | _ => false
  end.

(** Keychains that any number of later runs of the program leave when
    each of them returns or exits. *)
Inductive after_runs (kc : list SecKeychainItem)
  : list SecKeychainItem -> Prop :=
| after_none : after_runs kc kc
| after_run kc1 w fuel argv s' :
    after_runs kc kc1 ->
    finished (main w fuel argv (start kc1)) = Some s' ->
    after_runs kc (keychain s').

(** The state after one [getpass]. *)
Definition asking (text : string) (s : state) : state :=
  {| keychain := keychain s; stdout := stdout s; stderr := stderr s;
     calls := calls s ++ [Getpass text]; pid_reads := pid_reads s;
     prompts := S (prompts s) |}.

(** What the resolver asks on a miss, by purpose (main.c, 266-267 and
    285), the state in which it then calls the keychain, and the
    username and password it passes to [create_keychain_item] when [n]
    prompts came before (main.c, 268 and 286). *)
Definition asked (p : purpose) : list call :=
  match p with
  | Username => [Getpass "Username: "; Getpass "Password: "]
  | Password => [Getpass "Password: "]
  end.

Definition prompted (p : purpose) (s : state) : state :=
  match p with
  | Username => asking "Password: " (asking "Username: " s)
  | Password => asking "Password: " s
  end.

Definition entered (w : world) (p : purpose) (n : nat) : string * string :=
  match p with
  | Username => (os_getpass w n, os_getpass w (S n))
  | Password => (EmptyString, os_getpass w n)
  end.

(** The field of the entered pair that the resolver returns. *)
Definition requested (p : purpose) (credential : string * string) : string :=
  match p with
  | Username => fst credential
  | Password => snd credential
  end.

(** The store of [prompt] (main.c, 234) for what was typed lands in
    bytes that belong to no other object. *)
Definition room (w : world) (typed : string) : bool :=
  Nat.ltb (strlen typed + 1)
    (strlen typed + 1 + os_malloc_slack w (strlen typed + 1)).

(** The same for everything that is typed on a miss when [n] prompts
    came before. *)
Definition rooms (w : world) (p : purpose) (n : nat) : bool :=
  match p with
  | Username => room w (os_getpass w n) && room w (os_getpass w (S n))
  | Password => room w (os_getpass w n)
  end.

(** An outcome that is an exit, or the point where the behaviour of the
    run stops being defined. *)
Definition stopped {A} (o : outcome A) (s : state) : Prop :=
  (exists status, o = Exited status s) \/ o = Undefined s.

(** ** Worlds for the examples *)

(** The terminal of a run whose [fdopen] gave a stream. *)
Definition opened : option FILE := Some stream_2.

Definition proc (pid ppid : Z) (name : string) : kinfo_proc :=
  {| kp_proc := {| p_pid := pid; p_comm := name |};
     kp_eproc := {| e_ppid := ppid |} |}.

Fixpoint entry_of (processes : list kinfo_proc) (pid : Z)
  : option kinfo_proc :=
  match processes with
  | [] => None
  | entry :: rest =>
      if (pid =? p_pid (kp_proc entry))%Z then Some entry
      else entry_of rest pid
  end.

(** A world whose repository has the remote
    [https://example.com/org/repo.git], whose Security calls report no
    fault, whose descriptor 2 is a terminal open for reading and
    writing, and whose allocator hands out blocks of a multiple of 16
    bytes. *)
Definition example_world (ppid : Z) (table : list kinfo_proc)
  (live : nat -> Z -> option kinfo_proc) (typed : nat -> string)
  (concurrent : list SecKeychainItem) : world :=
  {| os_getppid := ppid;
     os_proc_all_size := true;
     os_proc_all := Some table;
     os_proc_pid := live;
     os_popen := fun command =>
       if streq command "git config remote.origin.url"
       then Some ("https://example.com/org/repo.git" ++ nl, 0%Z)
       else None;
     os_getpass := typed;
     os_fdopen := Some stream_2;
     os_malloc_slack := fun n => (16 - n mod 16) mod 16;
     sec_fault := fun _ => None;
     sec_concurrent := concurrent;
     sec_message := fun status =>
       if (status =? errSecDuplicateItem)%Z
       then "The specified item already exists in the keychain."
       else "Unknown error." |}.

Definition typed_alice (n : nat) : string :=
  match n with
  | O => "alice"
  | S _ => "s3cret"
  end.

(** git (pid 20) runs a shell (pid 10) that runs the helper. *)
Definition git_table : list kinfo_proc :=
  [proc 1 0 "launchd"; proc 20 1 "git"; proc 10 20 "sh"].

Definition git_world : world :=
  example_world 10 git_table (fun _ => entry_of git_table) typed_alice [].

(** The same table, read after git has gone: the live table gives the
    shell to pid 1. *)
Definition orphan_world : world :=
  example_world 10 git_table
    (fun _ => entry_of [proc 1 0 "launchd"; proc 10 1 "sh"]) typed_alice [].

(** A cron job (pid 30) runs the helper; no git above it. *)
Definition cron_table : list kinfo_proc :=
  [proc 1 0 "launchd"; proc 30 1 "cron"].

Definition cron_world : world :=
  example_world 30 cron_table (fun _ => entry_of cron_table) typed_alice [].

(** A table whose own links all lead to pid 1, read while pids 5 and 6
    keep changing hands: at every even read the live table has pid 5
    below pid 6 below pid 1, at every odd read pid 6 below pid 5 below
    pid 1. *)
Definition flat_table : list kinfo_proc := [proc 5 1 "a"; proc 6 1 "b"].

Definition swapping (n : nat) : list kinfo_proc :=
  if Nat.even n then [proc 5 6 "a"; proc 6 1 "b"]
  else [proc 5 1 "a"; proc 6 5 "b"].

Definition cyclic_world : world :=
  example_world 5 flat_table (fun n => entry_of (swapping n)) typed_alice [].

(** The live table keeps the links of [git_table] and changes every
    name. *)
Definition renamed_world : world :=
  example_world 10 git_table
    (fun _ => entry_of [proc 1 0 "init"; proc 20 1 "tig"; proc 10 20 "zsh"])
    typed_alice [].

(** Another run of the helper stores a credential for the same remote
    and the same username between the lookup of this run and its
    create. *)
Definition race_world : world :=
  example_world 10 git_table (fun _ => entry_of git_table) typed_alice
    [new_item "https://example.com/" "alice" "hunter2"].

(** Another process stores a credential of bob for the same remote
    between the lookup of this run and its create. *)
Definition bob_world : world :=
  example_world 10 git_table (fun _ => entry_of git_table) typed_alice
    [new_item "https://example.com/" "bob" "hunter2"].

(** [w] with the faults [f] of the Security calls. *)
Definition with_fault (w : world) (f : sec_call -> option OSStatus) : world :=
  {| os_getppid := os_getppid w;
     os_proc_all_size := os_proc_all_size w;
     os_proc_all := os_proc_all w;
     os_proc_pid := os_proc_pid w;
     os_popen := os_popen w;
     os_getpass := os_getpass w;
     os_fdopen := os_fdopen w;
     os_malloc_slack := os_malloc_slack w;
     sec_fault := f;
     sec_concurrent := sec_concurrent w;
     sec_message := sec_message w |}.

(** The keychain refuses the lookup with [errSecInteractionNotAllowed]. *)
Definition locked_world : world :=
  with_fault git_world
    (fun c => match c with
              | FindGenericPassword => Some (-25308)%Z
              | _ => None
              end).


(** A string of [n] letters. *)
Fixpoint filler (n : nat) : string :=
  match n with
  | O => EmptyString
  | S n' => String "a" (filler n')
  end.

(** [w] with another answer to [popen]. *)
Definition with_popen (w : world) (answer : option (string * Z)) : world :=
  {| os_getppid := os_getppid w;
     os_proc_all_size := os_proc_all_size w;
     os_proc_all := os_proc_all w;
     os_proc_pid := os_proc_pid w;
     os_popen := fun _ => answer;
     os_getpass := os_getpass w;
     os_fdopen := os_fdopen w;
     os_malloc_slack := os_malloc_slack w;
     sec_fault := sec_fault w;
     sec_concurrent := sec_concurrent w;
     sec_message := sec_message w |}.

(** [w] with other answers to the two reads of the whole table and to
    the reads of one pid. *)
Definition with_sysctl (w : world) (size : bool)
  (table : option (list kinfo_proc))
  (live : nat -> Z -> option kinfo_proc) : world :=
  {| os_getppid := os_getppid w;
     os_proc_all_size := size;
     os_proc_all := table;
     os_proc_pid := live;
     os_popen := os_popen w;
     os_getpass := os_getpass w;
     os_fdopen := os_fdopen w;
     os_malloc_slack := os_malloc_slack w;
     sec_fault := sec_fault w;
     sec_concurrent := sec_concurrent w;
     sec_message := sec_message w |}.

(** [w] with another answer to [fdopen]. *)
Definition with_fdopen (w : world) (stream : option FILE) : world :=
  {| os_getppid := os_getppid w;
     os_proc_all_size := os_proc_all_size w;
     os_proc_all := os_proc_all w;
     os_proc_pid := os_proc_pid w;
     os_popen := os_popen w;
     os_getpass := os_getpass w;
     os_fdopen := stream;
     os_malloc_slack := os_malloc_slack w;
     sec_fault := sec_fault w;
     sec_concurrent := sec_concurrent w;
     sec_message := sec_message w |}.

(** [w] with something else typed at the prompts. *)
Definition with_getpass (w : world) (typed : nat -> string) : world :=
  {| os_getppid := os_getppid w;
     os_proc_all_size := os_proc_all_size w;
     os_proc_all := os_proc_all w;
     os_proc_pid := os_proc_pid w;
     os_popen := os_popen w;
     os_getpass := typed;
     os_fdopen := os_fdopen w;
     os_malloc_slack := os_malloc_slack w;
     sec_fault := sec_fault w;
     sec_concurrent := sec_concurrent w;
     sec_message := sec_message w |}.

(** The messages that the program passes to [fatal]: the seven of its
    own (main.c, 80, 81, 82, 97, 122, 124, 128, 129, 297, 299 and 305) and, for a Security call that failed, the text that the
    framework has for the status. *)
Definition diagnostic (w : world) (message : string) : Prop :=
  In message ["can only be used by git"; "sysctl failed";
              "unable to allocate memory"; "sysctl PROC_PID failed";
              "command generation failed"; "popen failed";
              "reading from git failed"]
  \/ exists status, status <> 0%Z /\ message = sec_message w status.

(** An outcome that respects the two streams: standard output is left
    as it was, and the terminal gets one line, made of [fatal: ] and
    one of these messages, exactly when the process exits, which it
    does with status -1 and only when the terminal is a stream. *)
Definition tidy {A} (w : world) (terminal : option FILE) (s : state)
  (o : outcome A) : Prop :=
  match o with
  | Returned _ s' | Undefined s' =>
      stdout s' = stdout s /\ stderr s' = stderr s
  | Exited status s' =>
      status = (-1)%Z
      /\ terminal <> None
      /\ stdout s' = stdout s
      /\ exists message,
          diagnostic w message
          /\ stderr s' = stderr s ++ "fatal: " ++ message ++ nl
  | OutOfFuel => True
  end.

Definition tidily {A} (w : world) (terminal : option FILE) (c : M A) : Prop :=
  forall s, tidy w terminal s (c s).

(** Whether the lookup of a purpose asks the keychain for the secret
    (main.c, 258 and 277). *)
Definition wants_secret (p : purpose) : bool :=
  match p with
  | Username => false
  | Password => true
  end.

(** The field of a found item that answers a purpose (main.c, 262 and
    281). *)
Definition field (p : purpose) (item : KeyChainItem) : option string :=
  match p with
  | Username => username item
  | Password => password item
  end.

(** The calls that can follow the [popen] in one run of the resolver. *)
Definition resolver_calls (p : purpose) (l : list call) : Prop :=
  l = []
  \/ exists repository,
      l = [SecFind repository]
      \/ l = [SecFind repository; SecAttributeInfo]
      \/ l = [SecFind repository; SecAttributeInfo; SecCopy (wants_secret p)]
      \/ exists attributes secret,
          l = (SecFind repository :: asked p ++
               [SecCreate attributes secret])%list.

(** The pid [n] links above [pid] in the table itself, as long as the
    loop would go on: no link leaves pid 0, pid 1 or a pid that the
    table does not hold. *)
Fixpoint climb (processes : list kinfo_proc) (n : nat) (pid : Z)
  : option Z :=
  match n with
  | O => Some pid
  | S n' =>
      if stops pid then None
      else
        match table_parent processes pid with
        | Some ppid => climb processes n' ppid
        | None => None
        end
  end.

(** The pids that these [n] links leave. *)
Fixpoint trail (processes : list kinfo_proc) (n : nat) (pid : Z) : list Z :=
  match n with
  | O => []
  | S n' =>
      pid :: match table_parent processes pid with
             | Some ppid => trail processes n' ppid
             | None => []
             end
  end.

(** ** Some runs *)

Example trim_repository_https_example :
  trim_repository "https://example.com/org/repo.git" = "https://example.com/".
Proof. reflexivity. Qed.

Example trim_repository_short :
  trim_repository "a/b/c" = "a/b/c".
Proof. reflexivity. Qed.

Example trim_repository_no_path :
  trim_repository "https://example.com" = "https://example.com".
Proof. reflexivity. Qed.

Example trim_trailing_whitespace_line :
  trim_trailing_whitespace ("https://example.com/r.git" ++ nl) =
  Some "https://example.com/r.git".
Proof. reflexivity. Qed.

(** git asks for the username on an empty keychain: two prompts, one
    item, the username on standard output. *)
Example main_username_first :
  main git_world 3 ["git-password"; "Username: "] (start []) =
  Returned 0%Z
    {| keychain := [new_item "https://example.com/" "alice" "s3cret"];
       stdout := "alice"; stderr := EmptyString;
       calls := [Getppid; SysctlProcAll false; SysctlProcAll true;
                 SysctlProcPid 10; SysctlProcPid 20;
                 Popen config_command; SecFind "https://example.com/";
                 Getpass "Username: "; Getpass "Password: ";
                 SecCreate (new_attributes "https://example.com/" "alice")
                   "s3cret"];
       pid_reads := 2; prompts := 2 |}.
Proof. reflexivity. Qed.

(** git then asks for the password: the item answers. *)
Example main_password_second :
  main git_world 3 ["git-password"; "Password: "]
    (start [new_item "https://example.com/" "alice" "s3cret"]) =
  Returned 0%Z
    {| keychain := [new_item "https://example.com/" "alice" "s3cret"];
       stdout := "s3cret"; stderr := EmptyString;
       calls := [Getppid; SysctlProcAll false; SysctlProcAll true;
                 SysctlProcPid 10; SysctlProcPid 20;
                 Popen config_command; SecFind "https://example.com/";
                 SecAttributeInfo; SecCopy true];
       pid_reads := 2; prompts := 0 |}.
Proof. reflexivity. Qed.

(** Started by cron, the helper refuses. *)
Example main_not_git :
  main cron_world 3 ["git-password"; "Password: "]
    (start [new_item "https://example.com/" "alice" "s3cret"]) =
  Exited (-1)
    {| keychain := [new_item "https://example.com/" "alice" "s3cret"];
       stdout := EmptyString;
       stderr := "fatal: can only be used by git" ++ nl;
       calls := [Getppid; SysctlProcAll false; SysctlProcAll true;
                 SysctlProcPid 30];
       pid_reads := 1; prompts := 0 |}.
Proof. reflexivity. Qed.

(** Started by cron with descriptor 2 open for writing only, the helper
    has no stream to write its refusal to. *)
Example main_not_git_without_terminal :
  main (with_fdopen cron_world None) 3 ["git-password"; "Password: "]
    (start [new_item "https://example.com/" "alice" "s3cret"]) =
  Undefined
    {| keychain := [new_item "https://example.com/" "alice" "s3cret"];
       stdout := EmptyString; stderr := EmptyString;
       calls := [Getppid; SysctlProcAll false; SysctlProcAll true;
                 SysctlProcPid 30];
       pid_reads := 1; prompts := 0 |}.
Proof. reflexivity. Qed.

(** A password of 15 characters fills a block of 16 bytes: the store of
    [prompt] falls on the byte after it, and nothing is created. *)
Example main_password_fills_the_block :
  main (with_getpass git_world (fun _ => "correct horse b")) 3
    ["git-password"; "Password: "] (start []) =
  Undefined
    {| keychain := []; stdout := EmptyString; stderr := EmptyString;
       calls := [Getppid; SysctlProcAll false; SysctlProcAll true;
                 SysctlProcPid 10; SysctlProcPid 20;
                 Popen config_command; SecFind "https://example.com/";
                 Getpass "Password: "];
       pid_reads := 2; prompts := 1 |}.
Proof. reflexivity. Qed.

(** ** Facts on C strings *)

Lemma strlen_append a b : strlen (a ++ b) = strlen a + strlen b.
Proof.
  unfold strlen. induction a as [|c a IH]; simpl; [reflexivity|].
  now rewrite IH.
Qed.

Lemma offset_append n a b :
  n <= strlen a -> offset n (a ++ b) = offset n a ++ b.
Proof.
  revert a. induction n as [|n IH]; intros a Hn.
  - now destruct a.
  - destruct a as [|c a]; simpl in *; [lia|]. apply IH. unfold strlen in *. lia.
Qed.

Lemma strlen_offset n a : strlen (offset n a) = strlen a - n.
Proof.
  revert a. induction n as [|n IH]; intros a.
  - destruct a; simpl; unfold strlen; simpl; lia.
  - destruct a as [|c a]; simpl; [reflexivity|]. apply IH.
Qed.

(** The first [c] of [q ++ c :: r] lies in [q] or is the [c] shown, so
    its index does not depend on [r]. *)
Lemma strchr_append q c r :
  strchr (q ++ String c r) c =
  Some (match strchr q c with Some i => i | None => strlen q end).
Proof.
  induction q as [|a q IH]; simpl.
  - now rewrite Ascii.eqb_refl.
  - destruct (Ascii.eqb a c); [reflexivity|].
    rewrite IH. destruct (strchr q c); reflexivity.
Qed.

Lemma strchr_bound q c i : strchr q c = Some i -> i < strlen q.
Proof.
  revert i. induction q as [|a q IH]; simpl; intros i H; [discriminate|].
  destruct (Ascii.eqb a c).
  - injection H as <-. unfold strlen. simpl. lia.
  - destruct (strchr q c) as [j|]; [|discriminate].
    injection H as <-. specialize (IH j eq_refl). unfold strlen in *. simpl. lia.
Qed.

Lemma truncate_append n a c r :
  n <= strlen a + 1 ->
  truncate n (a ++ String c r) = truncate n (a ++ String c EmptyString).
Proof.
  revert n. induction a as [|x a IH]; intros n Hn; simpl in *.
  - destruct n as [|[|n]]; simpl; try reflexivity. lia.
  - destruct n as [|n]; simpl; [reflexivity|].
    f_equal. apply IH. unfold strlen in *. simpl in Hn. lia.
Qed.

Lemma truncate_all a : truncate (strlen a) a = a.
Proof.
  induction a as [|x a IH]; simpl; [reflexivity|]. now f_equal.
Qed.

Lemma truncate_offset n a : n <= strlen a -> truncate n a ++ offset n a = a.
Proof.
  revert a. induction n as [|n IH]; intros a Hn.
  - now destruct a.
  - destruct a as [|x a]; simpl in *; [reflexivity|].
    f_equal. apply IH. unfold strlen in *. simpl in Hn. lia.
Qed.

(** ** The repository key *)

(** With a slash-free tail after the eighth character, the key is the
    scheme-and-host part with its separator. *)
Lemma first_slash_shared p r :
  strlen https_prefix <= strlen p ->
  first_slash (p ++ String slash r) =
  Some (strlen https_prefix +
        match strchr (offset (strlen https_prefix) p) slash with
        | Some i => i
        | None => strlen p - strlen https_prefix
        end).
Proof.
  intros Hp. unfold first_slash.
  rewrite strlen_append.
  replace (Nat.ltb (strlen https_prefix) (strlen p + strlen (String slash r)))
    with true.
  2:{ symmetry. apply Nat.ltb_lt. unfold strlen in *. simpl in *. lia. }
  rewrite offset_append by exact Hp.
  rewrite strchr_append, strlen_offset. reflexivity.
Qed.

Lemma trim_repository_shared p r :
  strlen https_prefix <= strlen p ->
  trim_repository (p ++ String slash r) =
  trim_repository (p ++ String slash EmptyString).
Proof.
  intros Hp. unfold trim_repository.
  rewrite !first_slash_shared by exact Hp.
  apply truncate_append.
  destruct (strchr (offset (strlen https_prefix) p) slash) as [i|] eqn:E.
  - apply strchr_bound in E. rewrite strlen_offset in E. lia.
  - lia.
Qed.

Lemma trim_repository_https host :
  strchr host slash = None ->
  trim_repository (url "https" host EmptyString) = url "https" host EmptyString.
Proof.
  intros Hhost. unfold url, trim_repository.
  change ("/" ++ EmptyString) with (String slash EmptyString).
  rewrite first_slash_shared by (unfold strlen; simpl; lia).
  change (offset (strlen https_prefix) ("https" ++ "://" ++ host)) with host.
  rewrite Hhost.
  set (p := "https" ++ "://" ++ host).
  replace (strlen https_prefix + (strlen p - strlen https_prefix) + 1)
    with (strlen (p ++ String slash EmptyString)).
  - apply truncate_all.
  - rewrite strlen_append. subst p. unfold strlen. simpl. lia.
Qed.

(** C7, as the claim states it, fails: two URLs with the same scheme and
    the same host, which differ only after the first separator that
    follows the host, get different keys when scheme and host together
    are shorter than the eight characters the code skips. *)
Lemma trim_repository_short_host_differs :
  trim_repository (url "git" "h" "x/y") <> trim_repository (url "git" "h" "z/y").
Proof. vm_compute. discriminate. Qed.

(** C7 (amended): two URLs with the same scheme and host that differ only
    beyond the first separator after the host have the same key, provided
    scheme and host together are at least as long as ["https://"]; for an
    https URL that key is the URL cut just after the separator, as in the
    example of the specification; a URL shorter than ["https://"] is
    returned unchanged. *)
Theorem trim_repository_same_key :
  (forall scheme host path1 path2,
      strlen https_prefix <= strlen (scheme ++ "://" ++ host) ->
      trim_repository (url scheme host path1) =
      trim_repository (url scheme host path2))
  /\ (forall host path,
         strchr host slash = None ->
         trim_repository (url "https" host path) = "https://" ++ host ++ "/")
  /\ trim_repository "https://example.com/org/repo.git" = "https://example.com/"
  /\ (forall u, strlen u < strlen https_prefix -> trim_repository u = u).
Proof.
  repeat split.
  - intros scheme host path1 path2 Hlen. unfold url.
    change ("/" ++ path1) with (String slash path1).
    change ("/" ++ path2) with (String slash path2).
    rewrite (trim_repository_shared _ path1), (trim_repository_shared _ path2)
      by exact Hlen.
    reflexivity.
  - intros host path Hhost.
    transitivity (trim_repository (url "https" host EmptyString)).
    + unfold url. apply (trim_repository_shared _ path).
      unfold strlen. simpl. lia.
    + rewrite trim_repository_https by exact Hhost. reflexivity.
  - intros u Hu. unfold trim_repository, first_slash.
    replace (Nat.ltb (strlen https_prefix) (strlen u)) with false; [reflexivity|].
    symmetry. apply Nat.ltb_ge. lia.
Qed.

Lemma trim_repository_same_key_witness :
  strlen https_prefix <= strlen ("http" ++ "://" ++ "example.com")
  /\ trim_repository (url "http" "example.com" "org/repo.git") =
     trim_repository (url "http" "example.com" "other.git")
  /\ strchr "example.com" slash = None
  /\ trim_repository (url "https" "example.com" "org/repo.git") =
     "https://" ++ "example.com" ++ "/"
  /\ strlen "ssh:" < strlen https_prefix
  /\ trim_repository "ssh:" = "ssh:".
Proof.
  destruct trim_repository_same_key as [Hsame [Hhttps [_ Hshort]]].
  split; [vm_compute; lia|].
  split; [apply Hsame; vm_compute; lia|].
  split; [reflexivity|].
  split; [apply Hhttps; reflexivity|].
  split; [vm_compute; lia|].
  apply Hshort. vm_compute. lia.
Defined.

(** ** The monad *)

Lemma bind_returned {A B} (c : M A) (k : A -> M B) s a s' :
  c s = Returned a s' -> bind c k s = k a s'.
Proof. intros H. unfold bind. now rewrite H. Qed.

Lemma bind_exited {A B} (c : M A) (k : A -> M B) s status s' :
  c s = Exited status s' -> bind c k s = Exited status s'.
Proof. intros H. unfold bind. now rewrite H. Qed.

Lemma bind_undefined {A B} (c : M A) (k : A -> M B) s s' :
  c s = Undefined s' -> bind c k s = Undefined s'.
Proof. intros H. unfold bind. now rewrite H. Qed.

(** [fatal] with a stream writes its line and exits. *)
Lemma fatal_exits {A} message terminal s :
  terminal <> None ->
  @fatal A message terminal s =
  Exited (-1)
    {| keychain := keychain s; stdout := stdout s;
       stderr := stderr s ++ "fatal: " ++ message ++ nl; calls := calls s;
       pid_reads := pid_reads s; prompts := prompts s |}.
Proof. destruct terminal as [[]|]; [reflexivity|congruence]. Qed.

(** [fatal] with [NULL] writes nothing and does not reach [exit]. *)
Lemma fatal_null {A} message s : @fatal A message None s = Undefined s.
Proof. reflexivity. Qed.

Lemma fatal_ends {A} message terminal s :
  @fatal A message terminal s <> OutOfFuel.
Proof. destruct terminal as [[]|]; discriminate. Qed.

(** Closes a goal that holds by computation once the terminal is known
    to be a stream or [NULL]. *)
Ltac by_terminal :=
  match goal with
  | t : option FILE |- _ =>
      destruct t as [[]|]; solve [discriminate | reflexivity | congruence]
  end.

(** ** The ancestry walk *)



Lemma walk_O {terminal} w processes pid s :
  walk w terminal 0 processes pid s =
  if stops pid then Returned false s else OutOfFuel.
Proof. unfold stops. simpl. now destruct ((pid =? 0) || (pid =? 1))%Z. Qed.

Lemma walk_S {terminal} w fuel processes pid s :
  walk w terminal (S fuel) processes pid s =
  if stops pid then Returned false s
  else
    match scan processes pid with
    | None => Returned false s
    | Some process =>
        match os_proc_pid w (pid_reads s) pid with
        | None => fatal "sysctl PROC_PID failed" terminal (after_read pid s)
        | Some info =>
            if streq (p_comm process) "git"
            then Returned true (after_read pid s)
            else walk w terminal fuel processes (e_ppid (kp_eproc info))
                   (after_read pid s)
        end
    end.
Proof.
  unfold stops. simpl.
  destruct ((pid =? 0) || (pid =? 1))%Z; [reflexivity|].
  destruct (scan processes pid) as [process|]; [|reflexivity].
  unfold bind, sysctl_proc_pid. simpl.
  fold (after_read pid s).
  destruct (os_proc_pid w (pid_reads s) pid); [|reflexivity].
  destruct (streq (p_comm process) "git"); reflexivity.
Qed.

Lemma walk_stops {terminal} w fuel processes pid s :
  stops pid = true -> walk w terminal fuel processes pid s = Returned false s.
Proof.
  intros H. destruct fuel; [rewrite walk_O | rewrite walk_S]; now rewrite H.
Qed.

Lemma is_git_calling_us_walk {terminal} w fuel processes s :
  os_proc_all_size w = true ->
  os_proc_all w = Some processes ->
  is_git_calling_us w terminal fuel s =
  walk w terminal fuel processes (os_getppid w) (after_snapshot s).
Proof.
  intros Hsize Hall. unfold is_git_calling_us, bind, getppid,
    sysctl_proc_all_size, sysctl_proc_all.
  rewrite Hsize, Hall. reflexivity.
Qed.

(** More fuel does not change an outcome that was reached. *)
Lemma walk_more_fuel {terminal} w processes fuel :
  forall pid s fuel',
    fuel <= fuel' ->
    walk w terminal fuel processes pid s <> OutOfFuel ->
    walk w terminal fuel' processes pid s = walk w terminal fuel processes pid s.
Proof.
  induction fuel as [|fuel IH]; intros pid s fuel' Hle Hout.
  - rewrite walk_O in *. destruct (stops pid) eqn:E; [|congruence].
    now rewrite walk_stops.
  - destruct fuel' as [|fuel']; [lia|].
    rewrite walk_S in Hout. rewrite !walk_S.
    destruct (stops pid); [reflexivity|].
    destruct (scan processes pid); [|reflexivity].
    destruct (os_proc_pid w (pid_reads s) pid); [|reflexivity].
    destruct (streq (p_comm e) "git"); [reflexivity|].
    apply IH; [lia | exact Hout].
Qed.








(** ** The reads on the live table *)

Lemma walk_same_answer {terminal} w1 w2 processes :
  (forall n pid, read_parent w1 n pid = read_parent w2 n pid) ->
  forall fuel pid s1 s2,
    pid_reads s1 = pid_reads s2 ->
    verdict_of (walk w1 terminal fuel processes pid s1) =
    verdict_of (walk w2 terminal fuel processes pid s2).
Proof.
  intros Hsame. induction fuel as [|fuel IH]; intros pid s1 s2 Hreads.
  - rewrite !walk_O. now destruct (stops pid).
  - rewrite !walk_S.
    destruct (stops pid); [reflexivity|].
    destruct (scan processes pid) as [process|]; [|reflexivity].
    specialize (Hsame (pid_reads s1) pid). unfold read_parent in Hsame.
    rewrite <- Hreads.
    destruct (os_proc_pid w1 (pid_reads s1) pid) as [i1|],
             (os_proc_pid w2 (pid_reads s1) pid) as [i2|];
      try discriminate; [|by_terminal].
    injection Hsame as ->.
    destruct (streq (p_comm process) "git"); [reflexivity|].
    apply IH. simpl. now rewrite Hreads.
Qed.

(** C4, as the claim states it, fails: two runs read the same table at
    the start, git being an ancestor in it; in one the later reads
    agree with the table, in the other git is gone by then and the
    shell belongs to pid 1; the verifier answers true in the first and
    false in the second. *)
Lemma live_reads_change_the_answer :
  os_getppid git_world = os_getppid orphan_world
  /\ os_proc_all_size git_world = os_proc_all_size orphan_world
  /\ os_proc_all git_world = os_proc_all orphan_world
  /\ verdict_of (is_git_calling_us git_world opened 3 (start [])) = Answers true
  /\ verdict_of (is_git_calling_us orphan_world opened 3 (start [])) = Answers false.
Proof. repeat split. Qed.

(** C4 (amended): the verifier reads the live table once per hop, for
    the parent pid alone.  Two runs, given the same terminal, that
    agree on the parent of the process, on the table read at the start
    and on the parent pid that every later read reports end the same
    way, whatever else the live records hold: names and presence come
    from the first table only. *)
Theorem is_git_calling_us_same_answer {terminal} w1 w2 fuel s1 s2 :
  os_getppid w1 = os_getppid w2 ->
  os_proc_all_size w1 = os_proc_all_size w2 ->
  os_proc_all w1 = os_proc_all w2 ->
  pid_reads s1 = pid_reads s2 ->
  (forall n pid, read_parent w1 n pid = read_parent w2 n pid) ->
  verdict_of (is_git_calling_us w1 terminal fuel s1) =
  verdict_of (is_git_calling_us w2 terminal fuel s2).
Proof.
  intros Hppid Hsize Hall Hreads Hsame.
  unfold is_git_calling_us, bind, getppid, sysctl_proc_all_size,
    sysctl_proc_all.
  rewrite Hppid, Hsize, Hall.
  destruct (os_proc_all_size w2); [|by_terminal]. simpl.
  destruct (os_proc_all w2) as [processes|]; [|by_terminal].
  apply walk_same_answer; [exact Hsame | exact Hreads].
Qed.

Lemma is_git_calling_us_same_answer_witness :
  verdict_of (is_git_calling_us git_world opened 3 (start [])) =
  verdict_of (is_git_calling_us renamed_world opened 3 (start [])).
Proof.
  apply is_git_calling_us_same_answer; try reflexivity.
  intros n pid. unfold read_parent. simpl.
  destruct (pid =? 1)%Z; [reflexivity|].
  destruct (pid =? 20)%Z; [reflexivity|].
  destruct (pid =? 10)%Z; reflexivity.
Defined.

(** ** Termination of the walk *)

Lemma scan_table_parent processes pid :
  scan processes pid = None <-> table_parent processes pid = None.
Proof.
  induction processes as [|entry rest IH]; simpl; [tauto|].
  destruct (pid =? p_pid (kp_proc entry))%Z; [split; discriminate | exact IH].
Qed.

Lemma scan_some_parent processes pid process :
  scan processes pid = Some process ->
  exists ppid, table_parent processes pid = Some ppid.
Proof.
  intros H. destruct (table_parent processes pid) as [ppid|] eqn:E; [eauto|].
  apply scan_table_parent in E. congruence.
Qed.

Lemma walk_terminates {terminal} w processes :
  (forall n pid info ppid,
      os_proc_pid w n pid = Some info ->
      table_parent processes pid = Some ppid ->
      e_ppid (kp_eproc info) = ppid) ->
  forall pid,
    reaches_end processes pid ->
    forall s, exists fuel, walk w terminal fuel processes pid s <> OutOfFuel.
Proof.
  intros Hagree pid Hend.
  induction Hend as [| | pid Habsent | pid ppid Hlink Hend IH]; intros s.
  - exists 0. rewrite walk_stops by reflexivity. discriminate.
  - exists 0. rewrite walk_stops by reflexivity. discriminate.
  - exists 1. rewrite walk_S. apply scan_table_parent in Habsent.
    rewrite Habsent. destruct (stops pid); discriminate.
  - destruct (IH (after_read pid s)) as [fuel Hfuel].
    exists (S fuel). rewrite walk_S.
    destruct (stops pid); [discriminate|].
    destruct (scan processes pid) as [process|]; [|discriminate].
    destruct (os_proc_pid w (pid_reads s) pid) as [info|] eqn:Hread;
      [|by_terminal].
    destruct (streq (p_comm process) "git"); [discriminate|].
    now rewrite (Hagree _ _ _ _ Hread Hlink).
Qed.

Lemma cyclic_walk fuel :
  forall s,
    (Nat.even (pid_reads s) = true ->
     walk cyclic_world opened fuel flat_table 5 s = OutOfFuel)
    /\ (Nat.even (pid_reads s) = false ->
        walk cyclic_world opened fuel flat_table 6 s = OutOfFuel).
Proof.
  induction fuel as [|fuel IH]; intros s.
  - split; reflexivity.
  - split; intros Hparity; rewrite walk_S; cbn; unfold swapping;
      rewrite Hparity; cbn; apply IH; cbn [pid_reads after_read];
      rewrite Nat.even_succ, <- Nat.negb_even, Hparity; reflexivity.
Qed.

(** C10, as the claim states it, fails: every link of the table read at
    the start leads to pid 1, so its parent relation has no cycle; the
    reads of the loop follow the live table, in which pid 5 and pid 6
    are by turns each other's parent, and no amount of fuel ends the
    walk. *)
Lemma cyclic_reads_never_end :
  (forall pid, reaches_end flat_table pid)
  /\ os_proc_all cyclic_world = Some flat_table
  /\ (forall fuel, is_git_calling_us cyclic_world opened fuel (start []) = OutOfFuel).
Proof.
  repeat split.
  - intros pid.
    destruct (Z.eqb_spec pid 5) as [->|H5].
    { apply (end_link _ 5%Z 1%Z); [reflexivity | apply end_root]. }
    destruct (Z.eqb_spec pid 6) as [->|H6].
    { apply (end_link _ 6%Z 1%Z); [reflexivity | apply end_root]. }
    apply end_absent. simpl.
    apply Z.eqb_neq in H5, H6. now rewrite H5, H6.
  - intros fuel.
    rewrite (is_git_calling_us_walk _ _ flat_table) by reflexivity.
    now apply cyclic_walk.
Qed.

(** C10 (amended): when the parent relation of the table read at the
    start has no cycle (from every pid its links lead to pid 0, to pid 1
    or to a pid that the table does not hold) and every read of the loop
    that succeeds reports the parent that this table records, the
    verifier terminates: from some amount of fuel on it returns or
    exits. *)
Theorem is_git_calling_us_terminates {terminal} w processes s :
  os_proc_all w = Some processes ->
  (forall pid, reaches_end processes pid) ->
  (forall n pid info ppid,
      os_proc_pid w n pid = Some info ->
      table_parent processes pid = Some ppid ->
      e_ppid (kp_eproc info) = ppid) ->
  exists fuel, forall fuel',
    fuel <= fuel' -> is_git_calling_us w terminal fuel' s <> OutOfFuel.
Proof.
  intros Hall Hends Hagree.
  destruct (os_proc_all_size w) eqn:Hsize.
  - destruct (walk_terminates (terminal := terminal) w processes Hagree
                (os_getppid w)
                (Hends _) (after_snapshot s)) as [fuel Hfuel].
    exists fuel. intros fuel' Hle.
    rewrite (is_git_calling_us_walk _ _ processes) by assumption.
    now rewrite (walk_more_fuel _ _ fuel).
  - exists 0. intros fuel' _.
    unfold is_git_calling_us, bind, getppid, sysctl_proc_all_size.
    rewrite Hsize. apply fatal_ends.
Qed.

Lemma is_git_calling_us_terminates_witness :
  exists fuel, forall fuel',
    fuel <= fuel' -> is_git_calling_us git_world opened fuel' (start []) <> OutOfFuel.
Proof.
  apply (is_git_calling_us_terminates git_world git_table); [reflexivity | |].
  - intros pid.
    assert (H1 : reaches_end git_table 1) by apply end_root.
    assert (H20 : reaches_end git_table 20)
      by (apply (end_link _ 20%Z 1%Z); [reflexivity | exact H1]).
    destruct (Z.eqb_spec pid 1) as [->|N1]; [exact H1|].
    destruct (Z.eqb_spec pid 20) as [->|N20]; [exact H20|].
    destruct (Z.eqb_spec pid 10) as [->|N10].
    { apply (end_link _ 10%Z 20%Z); [reflexivity | exact H20]. }
    apply end_absent. simpl.
    apply Z.eqb_neq in N1, N20, N10. now rewrite N1, N20, N10.
  - intros n pid info ppid. simpl.
    destruct (pid =? 1)%Z; [intros [= <-] [= <-]; reflexivity|].
    destruct (pid =? 20)%Z; [intros [= <-] [= <-]; reflexivity|].
    destruct (pid =? 10)%Z; [intros [= <-] [= <-]; reflexivity|].
    discriminate.
Defined.

(** ** Frames *)

Section Steps.

Variable R : state -> state -> Prop.
Hypothesis R_refl : forall s, R s s.
Hypothesis R_trans : forall a b c, R a b -> R b c -> R a c.

Lemma steps_ret {A} (a : A) : steps R (ret a).
Proof. intros s. apply R_refl. Qed.

Lemma steps_undefined {A} : steps R (@undefined A).
Proof. intros s. apply R_refl. Qed.

Lemma steps_exit {A} status : steps R (@exit A status).
Proof. intros s. apply R_refl. Qed.

Lemma steps_bind {A B} (c : M A) (k : A -> M B) :
  steps R c -> (forall a, steps R (k a)) -> steps R (bind c k).
Proof.
  intros Hc Hk s. specialize (Hc s). unfold bind.
  destruct (c s) as [a s1|st s1|s1|]; try assumption.
  specialize (Hk a s1).
  destruct (k a s1); try assumption; eapply R_trans; eassumption.
Qed.

Lemma steps_if {A} (b : bool) (c1 c2 : M A) :
  steps R c1 -> steps R c2 -> steps R (if b then c1 else c2).
Proof. now destruct b. Qed.

End Steps.

Lemma grows_by s s' l k :
  calls s' = (calls s ++ l)%list ->
  keychain s' = (keychain s ++ k)%list ->
  grows s s'.
Proof. intros Hl Hk. split; eauto. Qed.

Lemma grows_refl s : grows s s.
Proof. apply (grows_by _ _ [] []); now rewrite app_nil_r. Qed.

Lemma grows_trans a b c : grows a b -> grows b c -> grows a c.
Proof.
  intros [[l1 H1] [k1 K1]] [[l2 H2] [k2 K2]].
  apply (grows_by _ _ (l1 ++ l2)%list (k1 ++ k2)%list).
  - now rewrite H2, H1, app_assoc.
  - now rewrite K2, K1, app_assoc.
Qed.

Lemma grows_log c s : grows s (log c s).
Proof. apply (grows_by _ _ [c] []); simpl; now rewrite ?app_nil_r. Qed.

Create HintDb grows.

#[local] Hint Resolve grows_refl grows_log : grows.
#[local] Hint Resolve steps_ret steps_undefined steps_exit steps_if : grows.
#[local] Hint Extern 1 (steps grows (bind _ _)) =>
  apply (steps_bind grows grows_trans); [|intro] : grows.

Lemma fputs_grows text stream : steps grows (fputs text stream).
Proof.
  destruct stream as [[]|]; intros s; [|apply grows_refl].
  apply (grows_by _ _ [] []); simpl; now rewrite app_nil_r.
Qed.

Lemma printf_s_grows text : steps grows (printf_s text).
Proof. intros s. apply (grows_by _ _ [] []); simpl; now rewrite app_nil_r. Qed.

#[local] Hint Resolve fputs_grows printf_s_grows : grows.

Lemma fatal_grows {A} message terminal :
  steps grows (@fatal A message terminal).
Proof. unfold fatal. auto with grows. Qed.

#[local] Hint Resolve fatal_grows : grows.

Lemma security_grows {terminal} w status : steps grows (security w terminal status).
Proof. unfold security, security_fatal. auto with grows. Qed.

Lemma popen_grows w command : steps grows (popen w command).
Proof. intros s. apply grows_log. Qed.

Lemma getpass_grows w text : steps grows (getpass w text).
Proof.
  intros s. apply (grows_by _ _ [Getpass text] []); simpl;
    now rewrite ?app_nil_r.
Qed.

Lemma store_grows w size index : steps grows (store w size index).
Proof. unfold store. auto with grows. Qed.

#[local] Hint Resolve getpass_grows store_grows : grows.

Lemma prompt_grows w text : steps grows (prompt w text).
Proof. unfold prompt. auto with grows. Qed.

Lemma find_grows w service :
  steps grows (SecKeychainFindGenericPassword w service).
Proof.
  intros s. unfold SecKeychainFindGenericPassword.
  destruct (injected w FindGenericPassword); [apply grows_log|].
  destruct (first_of_service service (keychain s)); apply grows_log.
Qed.

Lemma attribute_info_grows w : steps grows (SecKeychainAttributeInfoForItemID w).
Proof.
  intros s. unfold SecKeychainAttributeInfoForItemID.
  destruct (injected w AttributeInfoForItemID); apply grows_log.
Qed.

Lemma copy_grows w item with_data :
  steps grows (SecKeychainItemCopyAttributesAndData w item with_data).
Proof.
  intros s. unfold SecKeychainItemCopyAttributesAndData.
  destruct (injected w ItemCopyAttributesAndData); apply grows_log.
Qed.

Lemma create_grows w attributes secret :
  steps grows (SecKeychainItemCreateFromContent w attributes secret).
Proof.
  intros s. unfold SecKeychainItemCreateFromContent.
  destruct (injected w ItemCreateFromContent); [|destruct (existsb _ _)].
  - now apply (grows_by _ _ [SecCreate attributes secret]
                 (sec_concurrent w)).
  - now apply (grows_by _ _ [SecCreate attributes secret]
                 (sec_concurrent w)).
  - apply (grows_by _ _ [SecCreate attributes secret]
             (sec_concurrent w ++
              [{| item_attr := attributes; item_data := secret |}])%list);
      simpl; [reflexivity | now rewrite app_assoc].
Qed.

#[local] Hint Resolve security_grows popen_grows prompt_grows find_grows
  attribute_info_grows copy_grows create_grows : grows.

Lemma git_config_grows {terminal} w key : steps grows (git_config w terminal key).
Proof.
  unfold git_config. apply (steps_bind grows grows_trans);
    [auto with grows|].
  intros [[output status]|]; [|auto with grows].
  destruct (negb (status =? 0)%Z); [auto with grows|].
  destruct (fgets 1024 output) as [result|]; [|auto with grows].
  destruct (trim_trailing_whitespace result); auto with grows.
Qed.

#[local] Hint Resolve git_config_grows : grows.

Lemma find_keychain_item_grows {terminal} w repository include_password :
  steps grows (find_keychain_item w terminal repository include_password).
Proof.
  unfold find_keychain_item.
  apply (steps_bind grows grows_trans); [auto with grows|].
  intros [status item].
  destruct (status =? errSecSuccess)%Z.
  - destruct item as [item|]; [|auto with grows].
    apply (steps_bind grows grows_trans); [auto with grows|].
    intros st.
    apply (steps_bind grows grows_trans); [auto with grows|].
    intros _.
    apply (steps_bind grows grows_trans); [auto with grows|].
    intros [[st' attributes] secret]. auto with grows.
  - destruct (status =? errSecItemNotFound)%Z; auto with grows.
Qed.

Lemma create_keychain_item_grows {terminal} w repository username password :
  steps grows (create_keychain_item w terminal repository username password).
Proof. unfold create_keychain_item. auto with grows. Qed.

#[local] Hint Resolve find_keychain_item_grows create_keychain_item_grows
  : grows.

Lemma printf_grows value : steps grows (printf value).
Proof. destruct value; simpl; auto with grows. Qed.

#[local] Hint Resolve printf_grows : grows.

Lemma get_username_grows {terminal} w : steps grows (get_username w terminal).
Proof.
  unfold get_username, git_origin_url.
  apply (steps_bind grows grows_trans); [auto with grows|].
  intros url.
  apply (steps_bind grows grows_trans); [auto with grows|].
  intros [item|]; auto 10 with grows.
Qed.

Lemma get_password_grows {terminal} w : steps grows (get_password w terminal).
Proof.
  unfold get_password, git_origin_url.
  apply (steps_bind grows grows_trans); [auto with grows|].
  intros url.
  apply (steps_bind grows grows_trans); [auto with grows|].
  intros [item|]; auto 10 with grows.
Qed.

(** ** The verifier touches nothing but the process table *)

Lemma quiet_refl s : quiet s s.
Proof.
  repeat split. exists []. now rewrite app_nil_r.
Qed.

Lemma quiet_trans a b c : quiet a b -> quiet b c -> quiet a c.
Proof.
  intros (Hk1 & Ho1 & Hp1 & l1 & Hc1 & Ht1) (Hk2 & Ho2 & Hp2 & l2 & Hc2 & Ht2).
  repeat split; try congruence.
  exists (l1 ++ l2)%list. split.
  - now rewrite Hc2, Hc1, app_assoc.
  - rewrite forallb_app. now rewrite Ht1, Ht2.
Qed.

Lemma quiet_log c s : is_trust_call c = true -> quiet s (log c s).
Proof.
  intros Hc. repeat split. exists [c]. simpl. now rewrite Hc.
Qed.

Lemma quiet_after_read pid s : quiet s (after_read pid s).
Proof. repeat split. now exists [SysctlProcPid pid]. Qed.

Lemma quiet_after_snapshot s : quiet s (after_snapshot s).
Proof.
  repeat split. now exists [Getppid; SysctlProcAll false; SysctlProcAll true];
    simpl; rewrite <- !app_assoc.
Qed.

Lemma trust_frame_after {A} s s1 (o : outcome A) :
  quiet s s1 -> stderr s1 = stderr s -> trust_frame s1 o -> trust_frame s o.
Proof.
  intros Hq He. destruct o as [a s'|st s'|s'|]; simpl; try tauto.
  - intros [Hq' He']. split; [eapply quiet_trans; eassumption | congruence].
  - intros (Hq' & Hst & message & He'). split; [|split].
    + eapply quiet_trans; eassumption.
    + exact Hst.
    + exists message. congruence.
  - intros [Hq' He']. split; [eapply quiet_trans; eassumption | congruence].
Qed.

Lemma fatal_frame {A} message terminal s :
  trust_frame s (@fatal A message terminal s).
Proof.
  destruct terminal as [[]|]; simpl.
  - split; [|split; [reflexivity | now exists message]].
    repeat split. exists []. simpl. now rewrite app_nil_r.
  - split; [apply quiet_refl | reflexivity].
Qed.

Lemma walk_frame {terminal} w processes fuel :
  forall pid s, trust_frame s (walk w terminal fuel processes pid s).
Proof.
  induction fuel as [|fuel IH]; intros pid s.
  - rewrite walk_O. destruct (stops pid); simpl; [|exact I].
    split; [apply quiet_refl | reflexivity].
  - rewrite walk_S.
    destruct (stops pid); [split; [apply quiet_refl | reflexivity]|].
    destruct (scan processes pid) as [process|];
      [|split; [apply quiet_refl | reflexivity]].
    destruct (os_proc_pid w (pid_reads s) pid) as [info|].
    + destruct (streq (p_comm process) "git").
      * split; [apply quiet_after_read | reflexivity].
      * apply (trust_frame_after s (after_read pid s));
          [apply quiet_after_read | reflexivity | apply IH].
    + apply (trust_frame_after s (after_read pid s));
        [apply quiet_after_read | reflexivity | apply fatal_frame].
Qed.

Lemma is_git_calling_us_frame {terminal} w fuel s :
  trust_frame s (is_git_calling_us w terminal fuel s).
Proof.
  unfold is_git_calling_us, bind, getppid, sysctl_proc_all_size,
    sysctl_proc_all.
  destruct (os_proc_all_size w); simpl.
  - destruct (os_proc_all w) as [processes|].
    + apply (trust_frame_after s (after_snapshot s));
        [apply quiet_after_snapshot | reflexivity | apply walk_frame].
    + apply (trust_frame_after s (after_snapshot s));
        [apply quiet_after_snapshot | reflexivity | apply fatal_frame].
  - apply (trust_frame_after s (log (SysctlProcAll false) (log Getppid s)));
      [|reflexivity | apply fatal_frame].
    repeat split.
    now exists [Getppid; SysctlProcAll false]; simpl; rewrite <- !app_assoc.
Qed.

(** An answer of the verifier comes after the snapshot was taken. *)
Lemma is_git_calling_us_returned {terminal} w fuel s b s1 :
  is_git_calling_us w terminal fuel s = Returned b s1 ->
  exists l,
    calls s1 =
    (calls s ++ Getppid :: SysctlProcAll false :: SysctlProcAll true :: l)%list.
Proof.
  unfold is_git_calling_us, bind, getppid, sysctl_proc_all_size,
    sysctl_proc_all.
  destruct (os_proc_all_size w); simpl; [|by_terminal].
  destruct (os_proc_all w) as [processes|]; [|by_terminal].
  intros H. fold (after_snapshot s) in H.
  assert (Hf := walk_frame (terminal := terminal) w processes fuel
                  (os_getppid w) (after_snapshot s)).
  rewrite H in Hf. destruct Hf as [(_ & _ & _ & l & Hl & _) _].
  exists l. rewrite Hl. simpl. now rewrite <- !app_assoc.
Qed.

Lemma trust_calls_only l :
  forallb is_trust_call l = true ->
  existsb is_store_call l = false /\ existsb is_prompt_call l = false.
Proof.
  induction l as [|c l IH]; simpl; [tauto|].
  intros H. apply andb_prop in H as [Hc Hl].
  destruct (IH Hl) as [-> ->]. destruct c; try discriminate; tauto.
Qed.

(** What follows the verifier in [main]. *)
Lemma main_unfold w fuel argv s :
  main w fuel argv s =
  bind (is_git_calling_us w (os_fdopen w) fuel)
    (fun ok =>
       if negb ok then fatal "can only be used by git" (os_fdopen w)
       else dispatch w (os_fdopen w) argv) s.
Proof. reflexivity. Qed.

Lemma dispatch_bad_usage {terminal} w argv s :
  bad_usage argv = true ->
  dispatch w terminal argv s = fatal "can only be used by git" terminal s.
Proof.
  unfold bad_usage, dispatch. intros Hbad.
  destruct (negb (List.length argv =? 2)%nat); [reflexivity|].
  simpl in Hbad. apply Bool.negb_true_iff, Bool.orb_false_iff in Hbad.
  destruct Hbad as [-> ->]. reflexivity.
Qed.

Lemma main_bad_usage w fuel argv s :
  bad_usage argv = true ->
  main w fuel argv s =
  bind (is_git_calling_us w (os_fdopen w) fuel)
    (fun _ => fatal "can only be used by git" (os_fdopen w)) s.
Proof.
  intros Hbad. rewrite main_unfold. unfold bind.
  destruct (is_git_calling_us w (os_fdopen w) fuel s) as [[|] s1| | |];
    try reflexivity.
  now apply dispatch_bad_usage.
Qed.

(** With a well-formed command line [main] resolves the purpose named
    by its argument and prints the value. *)
Lemma dispatch_resolve {terminal} w program p :
  dispatch w terminal [program; purpose_arg p] =
  (value <- resolve w terminal p ;; printf value ;;; ret 0%Z).
Proof. now destruct p. Qed.

Lemma dispatch_grows {terminal} w argv : steps grows (dispatch w terminal argv).
Proof.
  assert (Hu := get_username_grows (terminal := terminal) w).
  assert (Hp := get_password_grows (terminal := terminal) w).
  unfold dispatch. repeat apply steps_if; auto 10 with grows.
Qed.

(** ** The gate of [main] *)



(** C2, as the claim states it, fails: with the argument [Email: ], and
    with no argument at all, the program exits on the usage error only
    after the verifier has asked for the parent pid, read the process
    table and followed the chain up to git. *)
Lemma usage_error_follows_the_trust_check :
  bad_usage ["git-password"; "Email: "] = true
  /\ bad_usage ["git-password"] = true
  /\ main git_world 3 ["git-password"; "Email: "] (start []) =
     Exited (-1)
       {| keychain := []; stdout := EmptyString;
          stderr := "fatal: can only be used by git" ++ nl;
          calls := [Getppid; SysctlProcAll false; SysctlProcAll true;
                    SysctlProcPid 10; SysctlProcPid 20];
          pid_reads := 2; prompts := 0 |}
  /\ main git_world 3 ["git-password"] (start []) =
     main git_world 3 ["git-password"; "Email: "] (start []).
Proof. repeat split. Qed.

(** C2 (amended): invoked with a wrong number of arguments or with an
    argument other than [Username: ] and [Password: ], the program runs
    the trust verifier first; once the verifier has answered, whichever
    way, the program, whose [fdopen] gave it a stream on descriptor 2,
    writes [fatal: can only be used by git] and exits with a non-zero
    status; in no such run, with a stream or without, is there a
    keychain call or a prompt, the keychain is left as it was and
    nothing is printed on standard output. *)
Theorem main_usage_error w fuel argv kc :
  bad_usage argv = true ->
  (forall b s1,
      os_fdopen w <> None ->
      is_git_calling_us w (os_fdopen w) fuel (start kc) = Returned b s1 ->
      exists s2 l,
        main w fuel argv (start kc) = Exited (-1) s2
        /\ wait_status (-1) = 255%Z
        /\ stderr s2 = "fatal: can only be used by git" ++ nl
        /\ calls s2 = calls s1
        /\ calls s2 =
           Getppid :: SysctlProcAll false :: SysctlProcAll true :: l)
  /\ (forall s',
         final (main w fuel argv (start kc)) = Some s' ->
         forallb is_trust_call (calls s') = true
         /\ existsb is_store_call (calls s') = false
         /\ existsb is_prompt_call (calls s') = false
         /\ keychain s' = kc
         /\ stdout s' = EmptyString).
Proof.
  intros Hbad. rewrite (main_bad_usage _ _ _ _ Hbad). unfold bind.
  assert (Hf := is_git_calling_us_frame (terminal := os_fdopen w) w fuel
                  (start kc)).
  assert (Hr := is_git_calling_us_returned (terminal := os_fdopen w) w fuel
                  (start kc)).
  destruct (is_git_calling_us w (os_fdopen w) fuel (start kc))
    as [b s1|st s1|s1|]; simpl in Hf.
  - destruct Hf as [(Hk & Ho & _ & l & Hl & Htrust) He]. simpl in *. subst l.
    split.
    + intros b' s1' Hopen [= <- <-]. rewrite fatal_exits by exact Hopen.
      destruct (Hr _ _ eq_refl) as [l Hl].
      eexists; exists l. split; [reflexivity|]. simpl.
      rewrite He. repeat split. exact Hl.
    + intros s' Hs'.
      destruct (trust_calls_only _ Htrust) as [Hstore Hprompt].
      destruct (os_fdopen w) as [[]|]; simpl in Hs'; injection Hs' as <-;
        simpl; repeat split; assumption.
  - destruct Hf as [(Hk & Ho & _ & l & Hl & Htrust) _]. simpl in *. subst l.
    split; [discriminate|].
    intros s' [= <-].
    destruct (trust_calls_only _ Htrust) as [Hstore Hprompt].
    repeat split; assumption.
  - destruct Hf as [(Hk & Ho & _ & l & Hl & Htrust) _]. simpl in *. subst l.
    split; [discriminate|].
    intros s' [= <-].
    destruct (trust_calls_only _ Htrust) as [Hstore Hprompt].
    repeat split; assumption.
  - split; discriminate.
Qed.

Lemma main_usage_error_witness :
  bad_usage ["git-password"; "Email: "] = true
  /\ exists s2 l,
      main git_world 3 ["git-password"; "Email: "] (start []) = Exited (-1) s2
      /\ stderr s2 = "fatal: can only be used by git" ++ nl
      /\ calls s2 = Getppid :: SysctlProcAll false :: SysctlProcAll true :: l.
Proof.
  split; [reflexivity|].
  destruct (main_usage_error git_world 3 ["git-password"; "Email: "] []
              eq_refl) as [Hexit _].
  assert (Hopen : os_fdopen git_world <> None) by discriminate.
  destruct (Hexit true _ Hopen eq_refl)
    as (s2 & l & Hrun & _ & Herr & _ & Hcalls).
  exists s2, l. repeat split; assumption.
Defined.

(** ** The resolver, step by step *)

Lemma bind_stopped {A B} (c : M A) (k : A -> M B) s s1 :
  stopped (c s) s1 -> stopped (bind c k s) s1.
Proof.
  intros [[status H]|H].
  - left. exists status. now apply bind_exited.
  - right. now apply bind_undefined.
Qed.


Lemma finished_final {A} (o : outcome A) s :
  finished o = Some s -> final o = Some s.
Proof. now destruct o. Qed.

(** [fatal] ends the run where it is called; only the terminal can
    have changed. *)
Lemma fatal_stops {A} message terminal s :
  exists s1,
    stopped (@fatal A message terminal s) s1
    /\ calls s1 = calls s /\ keychain s1 = keychain s
    /\ stdout s1 = stdout s /\ prompts s1 = prompts s.
Proof.
  destruct terminal as [[]|]; eexists; split.
  - left. eexists. reflexivity.
  - now repeat split.
  - right. reflexivity.
  - now repeat split.
Qed.

Lemma git_origin_url_returns {terminal} w repository s :
  repository_of w = Some repository ->
  exists url,
    git_origin_url w terminal s = Returned url (log (Popen config_command) s)
    /\ trim_repository url = repository.
Proof.
  unfold repository_of, git_origin_url, git_config, bind, popen.
  change ("git config " ++ "remote.origin.url") with config_command.
  destruct (os_popen w config_command) as [[output status]|]; [|discriminate].
  destruct (status =? 0)%Z; [|discriminate]. simpl.
  destruct (fgets 1024 output) as [line|]; [|discriminate].
  destruct (trim_trailing_whitespace line) as [result|]; [|discriminate].
  intros [= <-]. eauto.
Qed.

Lemma find_status_zero w service kc :
  find_status w service kc = 0%Z ->
  injected w FindGenericPassword = None
  /\ exists it, first_of_service service kc = Some it.
Proof.
  unfold find_status, injected.
  destruct (sec_fault w FindGenericPassword) as [status|].
  - destruct (status =? 0)%Z eqn:E.
    + destruct (first_of_service service kc); [eauto | discriminate].
    + intros ->. discriminate.
  - destruct (first_of_service service kc); [eauto | discriminate].
Qed.

Lemma find_reports w service s :
  exists item,
    SecKeychainFindGenericPassword w service s =
    Returned (find_status w service (keychain s), item)
      (log (SecFind service) s)
    /\ (find_status w service (keychain s) = 0%Z ->
        injected w FindGenericPassword = None
        /\ item = first_of_service service (keychain s)
        /\ item <> None).
Proof.
  unfold SecKeychainFindGenericPassword.
  assert (Hz := find_status_zero w service (keychain s)).
  unfold find_status in *.
  destruct (injected w FindGenericPassword) as [status|].
  - eexists. split; [reflexivity|]. intros H. now destruct (Hz H).
  - destruct (first_of_service service (keychain s)) as [it|].
    + eexists. split; [reflexivity|]. intros _. now repeat split.
    + eexists. split; [reflexivity|]. discriminate.
Qed.

Lemma find_missing {terminal} w repository include_password s :
  find_status w repository (keychain s) = errSecItemNotFound ->
  find_keychain_item w terminal repository include_password s =
  Returned None (log (SecFind repository) s).
Proof.
  intros Hstatus. unfold find_keychain_item.
  destruct (find_reports w repository s) as (item & Hrun & _).
  rewrite (bind_returned _ _ _ _ _ Hrun), Hstatus. reflexivity.
Qed.

(** [security] on a status other than 0 is [fatal] with the message of
    the framework. *)
Lemma security_fails {terminal} w status s :
  status <> 0%Z ->
  security w terminal status s = fatal (sec_message w status) terminal s.
Proof.
  intros H. unfold security. apply Z.eqb_neq in H. rewrite H. reflexivity.
Qed.

Lemma security_stops {terminal} w status s :
  status <> 0%Z ->
  exists s1,
    stopped (security w terminal status s) s1
    /\ calls s1 = calls s /\ keychain s1 = keychain s
    /\ stdout s1 = stdout s /\ prompts s1 = prompts s.
Proof. intros H. rewrite (security_fails _ _ _ H). apply fatal_stops. Qed.

Lemma find_failing {terminal} w repository include_password s :
  find_status w repository (keychain s) <> 0%Z ->
  find_status w repository (keychain s) <> errSecItemNotFound ->
  find_keychain_item w terminal repository include_password s =
  fatal (sec_message w (find_status w repository (keychain s))) terminal
    (log (SecFind repository) s).
Proof.
  intros H0 Hnf. unfold find_keychain_item.
  destruct (find_reports w repository s) as (item & Hrun & _).
  rewrite (bind_returned _ _ _ _ _ Hrun).
  apply Z.eqb_neq in H0 as E0. apply Z.eqb_neq in Hnf as Enf.
  unfold errSecSuccess. rewrite E0, Enf.
  unfold bind at 1. rewrite (security_fails _ _ _ H0).
  now destruct terminal as [[]|].
Qed.

Lemma create_reports w repository username password s :
  SecKeychainItemCreateFromContent w
    (new_attributes repository username) password s =
  Returned (create_status w (keychain s) (new_item repository username password))
    {| keychain :=
         if (create_status w (keychain s)
               (new_item repository username password) =? 0)%Z
         then keychain s ++ sec_concurrent w ++
              [new_item repository username password]
         else keychain s ++ sec_concurrent w;
       stdout := stdout s; stderr := stderr s;
       calls := calls s ++
                [SecCreate (new_attributes repository username) password];
       pid_reads := pid_reads s; prompts := prompts s |}.
Proof.
  unfold SecKeychainItemCreateFromContent, create_status.
  fold (new_item repository username password).
  destruct (injected w ItemCreateFromContent) as [status|] eqn:E.
  - unfold injected in E.
    destruct (sec_fault w ItemCreateFromContent) as [st|]; [|discriminate].
    destruct (st =? 0)%Z eqn:Est; [discriminate|].
    injection E as <-. rewrite Est. reflexivity.
  - destruct (existsb _ _); simpl; [reflexivity|].
    now rewrite <- app_assoc.
Qed.

Lemma injected_nonzero w c status :
  injected w c = Some status -> status <> 0%Z.
Proof.
  unfold injected. destruct (sec_fault w c) as [st|]; [|discriminate].
  destruct (st =? 0)%Z eqn:E; [discriminate|].
  intros [= <-]. now apply Z.eqb_neq.
Qed.

Lemma attribute_info_reports w s :
  SecKeychainAttributeInfoForItemID w s =
  Returned
    (match injected w AttributeInfoForItemID with
     | Some status => status
     | None => errSecSuccess
     end)
    (log SecAttributeInfo s).
Proof.
  unfold SecKeychainAttributeInfoForItemID.
  now destruct (injected w AttributeInfoForItemID).
Qed.

Lemma copy_reports w item with_data s :
  SecKeychainItemCopyAttributesAndData w item with_data s =
  Returned
    (match injected w ItemCopyAttributesAndData with
     | Some status => (status, [], None)
     | None => (errSecSuccess, item_attr item,
                if with_data then Some (item_data item) else None)
     end)
    (log (SecCopy with_data) s).
Proof.
  unfold SecKeychainItemCopyAttributesAndData.
  now destruct (injected w ItemCopyAttributesAndData).
Qed.


(** A lookup without fault that finds [it] returns its account and,
    when asked, its secret. *)
Lemma find_hit {terminal} w repository include_password s it :
  injected w FindGenericPassword = None ->
  injected w AttributeInfoForItemID = None ->
  injected w ItemCopyAttributesAndData = None ->
  first_of_service repository (keychain s) = Some it ->
  find_keychain_item w terminal repository include_password s =
  Returned
    (Some {| username := account_of (item_attr it) None;
             password := if include_password then Some (item_data it)
                         else None |})
    (log (SecCopy include_password)
       (log SecAttributeInfo (log (SecFind repository) s))).
Proof.
  intros Hfind Hinfo Hcopy Hit.
  unfold find_keychain_item, bind, SecKeychainFindGenericPassword,
    SecKeychainAttributeInfoForItemID, SecKeychainItemCopyAttributesAndData.
  rewrite Hfind, Hit. simpl. rewrite Hinfo. simpl. rewrite Hcopy. simpl.
  now destruct include_password.
Qed.

Lemma create_keychain_item_runs {terminal} w repository username password s :
  create_keychain_item w terminal repository username password s =
  bind (SecKeychainItemCreateFromContent w
          (new_attributes repository username) password)
    (security w terminal) s.
Proof. reflexivity. Qed.

(** [prompt] returns what was typed when its store finds room, and is
    undefined otherwise, after [getpass] either way. *)
Lemma prompt_returns w text s :
  room w (os_getpass w (prompts s)) = true ->
  prompt w text s = Returned (os_getpass w (prompts s)) (asking text s).
Proof.
  intros H. unfold prompt, bind, getpass, store. unfold room in H.
  simpl. now rewrite H.
Qed.

Lemma prompt_undefined w text s :
  room w (os_getpass w (prompts s)) = false ->
  prompt w text s = Undefined (asking text s).
Proof.
  intros H. unfold prompt, bind, getpass, store. unfold room in H.
  simpl. now rewrite H.
Qed.


(** On a miss the resolver asks and, when what is typed finds room,
    calls [create_keychain_item]. *)
Lemma resolve_miss {terminal} w p repository s :
  repository_of w = Some repository ->
  find_status w repository (keychain s) = errSecItemNotFound ->
  rooms w p (prompts s) = true ->
  resolve w terminal p s =
  bind
    (create_keychain_item w terminal repository
       (fst (entered w p (prompts s))) (snd (entered w p (prompts s))))
    (fun _ => ret (Some (requested p (entered w p (prompts s)))))
    (prompted p (log (SecFind repository) (log (Popen config_command) s))).
Proof.
  intros Hrepo Hstatus Hroom.
  destruct (git_origin_url_returns (terminal := terminal) w repository s Hrepo)
    as (url & Hurl & Hkey).
  destruct p; simpl in Hroom |- *; unfold get_username, get_password;
    rewrite (bind_returned _ _ _ _ _ Hurl), Hkey;
    erewrite bind_returned by (apply find_missing; exact Hstatus);
    cbv beta iota.
  - apply andb_prop in Hroom as [Hu Hp].
    rewrite (bind_returned _ _ _ _ _
               (prompt_returns w "Username: "
                  (log (SecFind repository) (log (Popen config_command) s))
                  Hu)).
    rewrite (bind_returned _ _ _ _ _
               (prompt_returns w "Password: "
                  (asking "Username: "
                     (log (SecFind repository) (log (Popen config_command) s)))
                  Hp)).
    reflexivity.
  - rewrite (bind_returned _ _ _ _ _
               (prompt_returns w "Password: "
                  (log (SecFind repository) (log (Popen config_command) s))
                  Hroom)).
    reflexivity.
Qed.


Lemma create_keychain_item_status {terminal} w repository username password s :
  create_keychain_item w terminal repository username password s =
  if (create_status w (keychain s)
        (new_item repository username password) =? 0)%Z
  then
    Returned tt
      {| keychain := keychain s ++ sec_concurrent w ++
                     [new_item repository username password];
         stdout := stdout s; stderr := stderr s;
         calls := calls s ++
                  [SecCreate (new_attributes repository username) password];
         pid_reads := pid_reads s; prompts := prompts s |}
  else
    fatal
      (sec_message w
         (create_status w (keychain s)
            (new_item repository username password)))
      terminal
      {| keychain := keychain s ++ sec_concurrent w;
         stdout := stdout s; stderr := stderr s;
         calls := calls s ++
                  [SecCreate (new_attributes repository username) password];
         pid_reads := pid_reads s; prompts := prompts s |}.
Proof.
  rewrite create_keychain_item_runs.
  rewrite (bind_returned _ _ _ _ _ (create_reports w _ _ _ _)).
  destruct (_ =? 0)%Z eqn:E.
  - apply Z.eqb_eq in E. rewrite E. reflexivity.
  - apply Z.eqb_neq in E. rewrite (security_fails _ _ _ E). reflexivity.
Qed.

(** The whole of a miss in which what is typed finds room: what was
    asked, what the keychain was asked to hold, and how the run goes on
    from the state [s'] in which the create has answered, by its
    status. *)
Lemma resolve_miss_outcome {terminal} w p repository s :
  repository_of w = Some repository ->
  find_status w repository (keychain s) = errSecItemNotFound ->
  rooms w p (prompts s) = true ->
  exists s',
    resolve w terminal p s =
    (if (create_status w (keychain s)
           (new_item repository (fst (entered w p (prompts s)))
              (snd (entered w p (prompts s)))) =? 0)%Z
     then Returned (Some (requested p (entered w p (prompts s)))) s'
     else
       fatal
         (sec_message w
            (create_status w (keychain s)
               (new_item repository (fst (entered w p (prompts s)))
                  (snd (entered w p (prompts s))))))
         terminal s')
    /\ calls s' =
       (calls s ++ Popen config_command :: SecFind repository :: asked p ++
        [SecCreate (new_attributes repository (fst (entered w p (prompts s))))
           (snd (entered w p (prompts s)))])%list
    /\ keychain s' =
       (if (create_status w (keychain s)
              (new_item repository (fst (entered w p (prompts s)))
                 (snd (entered w p (prompts s)))) =? 0)%Z
        then keychain s ++ sec_concurrent w ++
             [new_item repository (fst (entered w p (prompts s)))
                (snd (entered w p (prompts s)))]
        else keychain s ++ sec_concurrent w)%list
    /\ stderr s' = stderr s
    /\ stdout s' = stdout s
    /\ prompts s' = prompts s + List.length (asked p).
Proof.
  intros Hrepo Hstatus Hroom.
  rewrite (resolve_miss _ _ _ _ Hrepo Hstatus Hroom).
  unfold bind at 1. rewrite create_keychain_item_status.
  replace (keychain (prompted p _)) with (keychain s) by now destruct p.
  destruct (_ =? 0)%Z; eexists;
    (split; [try reflexivity; now destruct terminal as [[]|] |]);
    destruct p; simpl; rewrite <- ?app_assoc; repeat split; lia.
Qed.

Lemma resolve_unfold {terminal} w p repository s :
  repository_of w = Some repository ->
  resolve w terminal p s =
  bind
    (find_keychain_item w terminal repository
       (match p with Username => false | Password => true end))
    (fun item =>
       match item with
       | Some item =>
           ret (match p with
                | Username => username item
                | Password => password item
                end)
       | None =>
           match p with
           | Username =>
               username <- prompt w "Username: " ;;
               password <- prompt w "Password: " ;;
               create_keychain_item w terminal repository username password ;;;
               ret (Some username)
           | Password =>
               password <- prompt w "Password: " ;;
               create_keychain_item w terminal repository EmptyString password ;;;
               ret (Some password)
           end
       end)
    (log (Popen config_command) s).
Proof.
  intros Hrepo.
  destruct (git_origin_url_returns (terminal := terminal) w repository s Hrepo)
    as (url & Hurl & Hkey).
  destruct p; simpl; unfold get_username, get_password;
    rewrite (bind_returned _ _ _ _ _ Hurl), Hkey; reflexivity.
Qed.

(** ** Errors of the lookup *)



(** ** First use *)

(** C1, as the claim states it, fails for the purpose Password: with no
    record for the key, [get_password] asks once, for the password
    alone, takes the first thing typed as the password and stores it
    under the empty username. *)
Lemma password_first_asks_once :
  find_status git_world "https://example.com/" [] = errSecItemNotFound
  /\ resolve git_world opened Password (start []) =
     Returned (Some "alice")
       {| keychain := [new_item "https://example.com/" EmptyString "alice"];
          stdout := EmptyString; stderr := EmptyString;
          calls := [Popen config_command; SecFind "https://example.com/";
                    Getpass "Password: ";
                    SecCreate
                      (new_attributes "https://example.com/" EmptyString)
                      "alice"];
          pid_reads := 0; prompts := 1 |}.
Proof. split; reflexivity. Qed.

(** C1 (amended): for a key without record, when the store of [prompt]
    finds room for what is typed and the create succeeds.  Resolving
    Username asks for the username and then for the password, stores an
    item that holds both under the key and returns the username just
    entered.  Resolving Password asks for the password alone, stores an
    item that holds the empty username and the password just entered,
    and returns that password.  Either way the lookup, the prompts and
    the create are the only calls after the query of the remote URL, in
    that order. *)
Theorem resolve_first_use {terminal} w repository s :
  repository_of w = Some repository ->
  find_status w repository (keychain s) = errSecItemNotFound ->
  (rooms w Username (prompts s) = true ->
   create_status w (keychain s)
     (new_item repository (os_getpass w (prompts s))
        (os_getpass w (S (prompts s)))) = 0%Z ->
   exists s',
     resolve w terminal Username s = Returned (Some (os_getpass w (prompts s))) s'
     /\ calls s' =
        (calls s ++
         [Popen config_command; SecFind repository;
          Getpass "Username: "; Getpass "Password: ";
          SecCreate (new_attributes repository (os_getpass w (prompts s)))
            (os_getpass w (S (prompts s)))])%list
     /\ keychain s' =
        (keychain s ++ sec_concurrent w ++
         [new_item repository (os_getpass w (prompts s))
            (os_getpass w (S (prompts s)))])%list
     /\ prompts s' = prompts s + 2)
  /\ (rooms w Password (prompts s) = true ->
      create_status w (keychain s)
        (new_item repository EmptyString (os_getpass w (prompts s))) = 0%Z ->
      exists s',
        resolve w terminal Password s = Returned (Some (os_getpass w (prompts s))) s'
        /\ calls s' =
           (calls s ++
            [Popen config_command; SecFind repository; Getpass "Password: ";
             SecCreate (new_attributes repository EmptyString)
               (os_getpass w (prompts s))])%list
        /\ keychain s' =
           (keychain s ++ sec_concurrent w ++
            [new_item repository EmptyString (os_getpass w (prompts s))])%list
        /\ prompts s' = prompts s + 1).
Proof.
  intros Hrepo Hstatus. split; intros Hroom Hcreate.
  - destruct (resolve_miss_outcome (terminal := terminal) w Username
                repository s Hrepo Hstatus Hroom)
      as (s' & Hrun & Hcalls & Hkc & _ & _ & Hprompts).
    simpl in *. rewrite Hcreate in *. simpl in *. eauto 6.
  - destruct (resolve_miss_outcome (terminal := terminal) w Password
                repository s Hrepo Hstatus Hroom)
      as (s' & Hrun & Hcalls & Hkc & _ & _ & Hprompts).
    simpl in *. rewrite Hcreate in *. simpl in *. eauto 6.
Qed.

Lemma resolve_first_use_witness :
  (exists s',
      resolve git_world opened Username (start []) = Returned (Some "alice") s'
      /\ keychain s' = [new_item "https://example.com/" "alice" "s3cret"])
  /\ (exists s',
         resolve git_world opened Password (start []) = Returned (Some "alice") s'
         /\ keychain s' = [new_item "https://example.com/" EmptyString "alice"]).
Proof.
  destruct (resolve_first_use (terminal := opened) git_world
              "https://example.com/" (start []) eq_refl eq_refl)
    as [Husername Hpassword].
  split.
  - destruct (Husername eq_refl eq_refl) as (s' & Hrun & _ & Hkc & _). eauto.
  - destruct (Hpassword eq_refl eq_refl) as (s' & Hrun & _ & Hkc & _). eauto.
Defined.

(** ** A create that is refused *)

(** C3, as the claim states it, fails: another run stores the same
    credential between the lookup and the create; the create reports
    [errSecDuplicateItem] and the resolver exits through [fatal]. *)
Lemma duplicate_item_is_fatal :
  find_status race_world "https://example.com/" [] = errSecItemNotFound
  /\ create_status race_world []
       (new_item "https://example.com/" "alice" "s3cret") = errSecDuplicateItem
  /\ resolve race_world opened Username (start []) =
     Exited (-1)
       {| keychain := [new_item "https://example.com/" "alice" "hunter2"];
          stdout := EmptyString;
          stderr := "fatal: The specified item already exists in the keychain."
                    ++ nl;
          calls := [Popen config_command; SecFind "https://example.com/";
                    Getpass "Username: "; Getpass "Password: ";
                    SecCreate (new_attributes "https://example.com/" "alice")
                      "s3cret"];
          pid_reads := 0; prompts := 2 |}.
Proof. repeat split. Qed.

(** C3 (amended): when the create reports that the item already exists,
    the resolver does what it does on every non-zero status: called
    with a terminal that is a stream, and once the store of [prompt]
    has found room for what was typed, it writes the message of the
    keychain for that status after [fatal: ] and exits with status -1,
    returning nothing.  It does not ask again: the create is its last
    call. *)
Theorem create_refusal_is_fatal {terminal} w p repository s :
  terminal <> None ->
  repository_of w = Some repository ->
  find_status w repository (keychain s) = errSecItemNotFound ->
  rooms w p (prompts s) = true ->
  create_status w (keychain s)
    (new_item repository (fst (entered w p (prompts s)))
       (snd (entered w p (prompts s)))) = errSecDuplicateItem ->
  exists s',
    resolve w terminal p s = Exited (-1) s'
    /\ wait_status (-1) = 255%Z
    /\ stderr s' =
       stderr s ++ "fatal: " ++ sec_message w errSecDuplicateItem ++ nl
    /\ stdout s' = stdout s
    /\ calls s' =
       (calls s ++ Popen config_command :: SecFind repository :: asked p ++
        [SecCreate (new_attributes repository (fst (entered w p (prompts s))))
           (snd (entered w p (prompts s)))])%list
    /\ prompts s' = prompts s + List.length (asked p).
Proof.
  intros Hopen Hrepo Hstatus Hroom Hcreate.
  destruct (resolve_miss_outcome (terminal := terminal) w p repository s
              Hrepo Hstatus Hroom)
    as (s' & Hrun & Hcalls & _ & Herr & Hout & Hprompts).
  rewrite Hcreate in *. simpl in Hrun.
  rewrite fatal_exits in Hrun by exact Hopen.
  eexists. split; [exact Hrun|]. simpl. rewrite Herr.
  repeat split; assumption.
Qed.

Lemma create_refusal_is_fatal_witness :
  exists s',
    resolve race_world opened Username (start []) = Exited (-1) s'
    /\ stderr s' =
       "fatal: The specified item already exists in the keychain." ++ nl
    /\ prompts s' = 2.
Proof.
  assert (Hopen : opened <> None) by discriminate.
  destruct (create_refusal_is_fatal race_world Username "https://example.com/"
              (start []) Hopen eq_refl eq_refl eq_refl eq_refl)
    as (s' & Hrun & _ & Herr & _ & _ & Hprompts).
  exists s'. repeat split; assumption.
Defined.

(** ** Later runs *)

Lemma first_of_service_app service a b :
  first_of_service service (a ++ b) =
  match first_of_service service a with
  | Some it => Some it
  | None => first_of_service service b
  end.
Proof.
  induction a as [|it a IH]; simpl; [reflexivity|].
  now destruct (option_streq (item_service it) service).
Qed.

(** No item of the service, so no item of the same identity. *)
Lemma no_item_no_duplicate service kc it :
  item_service it = Some service ->
  first_of_service service kc = None ->
  existsb (same_identity it) kc = false.
Proof.
  intros Hit. induction kc as [|x kc IH]; simpl; [reflexivity|].
  destruct (option_streq (item_service x) service) eqn:E; [discriminate|].
  intros H. rewrite (IH H), Bool.orb_false_r.
  unfold same_identity. rewrite Hit.
  destruct (item_service x) as [sx|]; [|reflexivity].
  destruct (item_account it), (item_account x); try reflexivity.
  simpl in E. unfold streq in *. rewrite String.eqb_sym, E. reflexivity.
Qed.

Lemma main_extends w fuel argv s s' :
  final (main w fuel argv s) = Some s' ->
  exists k, keychain s' = (keychain s ++ k)%list.
Proof.
  rewrite main_unfold. unfold bind.
  assert (Hf := is_git_calling_us_frame (terminal := os_fdopen w) w fuel s).
  destruct (is_git_calling_us w (os_fdopen w) fuel s) as [[|] s1|st s1|s1|];
    simpl in Hf; try discriminate.
  - destruct Hf as [(Hk & _) _]. cbn [negb].
    assert (Hg := dispatch_grows (terminal := os_fdopen w) w argv s1).
    destruct (dispatch w (os_fdopen w) argv s1) as [a s2|st s2|s2|];
      try contradiction;
      simpl; intros [= <-]; destruct Hg as [_ [k Hk2]];
      exists k; congruence.
  - destruct Hf as [(Hk & _) _]. cbn [negb]. intros Hfinal.
    exists []. rewrite app_nil_r.
    destruct (os_fdopen w) as [[]|]; simpl in Hfinal;
      now injection Hfinal as <-.
  - destruct Hf as [(Hk & _) _]. simpl. intros [= <-].
    exists []. now rewrite app_nil_r.
  - destruct Hf as [(Hk & _) _]. simpl. intros [= <-].
    exists []. now rewrite app_nil_r.
Qed.

Lemma after_runs_extends kc kc2 :
  after_runs kc kc2 -> exists k, kc2 = (kc ++ k)%list.
Proof.
  induction 1 as [|kc1 w fuel argv s' _ [k IH] Hrun].
  - exists []. now rewrite app_nil_r.
  - destruct (main_extends _ _ _ _ _ (finished_final _ _ Hrun)) as [k' Hk'].
    simpl in Hk'.
    exists (k ++ k')%list. now rewrite Hk', IH, app_assoc.
Qed.

(** C9, as the claim states it, fails: Password is the first purpose
    resolved for the key while the keychain holds no record for it, and
    the record of this run, with the empty username, is stored behind
    the one that another process has just added; a later resolution of
    Username for the key answers with the username of that other
    record.  And with the record of this run alone in the keychain, a
    later resolution of Username whose lookup the keychain refuses
    returns nothing: the process exits. *)
Lemma password_first_behind_another_record :
  find_status bob_world "https://example.com/" [] = errSecItemNotFound
  /\ resolve bob_world opened Password (start []) =
     Returned (Some "alice")
       {| keychain := [new_item "https://example.com/" "bob" "hunter2";
                       new_item "https://example.com/" EmptyString "alice"];
          stdout := EmptyString; stderr := EmptyString;
          calls := [Popen config_command; SecFind "https://example.com/";
                    Getpass "Password: ";
                    SecCreate
                      (new_attributes "https://example.com/" EmptyString)
                      "alice"];
          pid_reads := 0; prompts := 1 |}
  /\ verdict_of
       (resolve git_world opened Username
          (start [new_item "https://example.com/" "bob" "hunter2";
                  new_item "https://example.com/" EmptyString "alice"])) =
     Answers (Some "bob")
  /\ verdict_of
       (resolve locked_world opened Username
          (start [new_item "https://example.com/" EmptyString "alice"])) =
     Exits (-1).
Proof. repeat split. Qed.

(** C9 (amended): when Password is the first purpose resolved for a key
    without record, no other process adds a record for the key before
    the create, the create meets no fault and the store of [prompt]
    finds room for the password typed, the item stored for the key has
    the empty string as its username; and after any number of later
    runs of the program that return or exit, every resolution of
    Username for the same key whose lookup meets no fault returns the
    empty string with no prompt. *)
Theorem password_first_empty_username {terminal} w repository s :
  repository_of w = Some repository ->
  find_status w repository (keychain s) = errSecItemNotFound ->
  first_of_service repository (keychain s ++ sec_concurrent w) = None ->
  injected w ItemCreateFromContent = None ->
  rooms w Password (prompts s) = true ->
  exists s' it,
    resolve w terminal Password s = Returned (Some (os_getpass w (prompts s))) s'
    /\ first_of_service repository (keychain s') = Some it
    /\ item_account it = Some EmptyString
    /\ forall kc2 w2 terminal2 s2,
        after_runs (keychain s') kc2 ->
        keychain s2 = kc2 ->
        repository_of w2 = Some repository ->
        injected w2 FindGenericPassword = None ->
        injected w2 AttributeInfoForItemID = None ->
        injected w2 ItemCopyAttributesAndData = None ->
        exists s2',
          resolve w2 terminal2 Username s2 = Returned (Some EmptyString) s2'
          /\ prompts s2' = prompts s2
          /\ calls s2' =
             (calls s2 ++
              [Popen config_command; SecFind repository; SecAttributeInfo;
               SecCopy false])%list
          /\ keychain s2' = keychain s2.
Proof.
  intros Hrepo Hstatus Hnone Hcreate Hroom.
  set (it := new_item repository EmptyString (os_getpass w (prompts s))).
  assert (Hok : create_status w (keychain s) it = 0%Z).
  { unfold create_status. rewrite Hcreate.
    now rewrite (no_item_no_duplicate repository _ it eq_refl Hnone). }
  destruct (resolve_miss_outcome (terminal := terminal) w Password repository
              s Hrepo Hstatus Hroom)
    as (s' & Hrun & _ & Hkc & _).
  simpl in Hrun, Hkc. fold it in Hrun, Hkc. rewrite Hok in Hrun, Hkc.
  simpl in Hrun, Hkc.
  assert (Hfirst : forall k,
             first_of_service repository (keychain s' ++ k) = Some it).
  { intros k. rewrite Hkc, app_assoc, <- app_assoc.
    rewrite first_of_service_app, Hnone. simpl.
    unfold streq. now rewrite String.eqb_refl. }
  exists s', it. split; [exact Hrun|]. split; [|split; [reflexivity|]].
  - rewrite <- (app_nil_r (keychain s')). apply Hfirst.
  - intros kc2 w2 terminal2 s2 Hlater Hs2 Hrepo2 Hfind Hinfo Hcopy.
    destruct (after_runs_extends _ _ Hlater) as [k ->].
    rewrite (resolve_unfold _ _ _ _ Hrepo2).
    erewrite bind_returned.
    2:{ apply find_hit; try assumption. simpl. rewrite Hs2. apply Hfirst. }
    eexists. split; [reflexivity|]. simpl. rewrite <- !app_assoc.
    repeat split.
Qed.

Lemma password_first_empty_username_witness :
  exists s' it,
    resolve git_world opened Password (start []) = Returned (Some "alice") s'
    /\ first_of_service "https://example.com/" (keychain s') = Some it
    /\ item_account it = Some EmptyString
    /\ exists s2',
        resolve git_world opened Username (start (keychain s')) =
        Returned (Some EmptyString) s2'
        /\ prompts s2' = 0.
Proof.
  destruct (password_first_empty_username (terminal := opened) git_world
              "https://example.com/" (start []) eq_refl eq_refl eq_refl eq_refl
              eq_refl)
    as (s' & it & Hrun & Hfirst & Haccount & Hlater).
  exists s', it. repeat split; try assumption.
  destruct (Hlater (keychain s') git_world opened (start (keychain s'))
              (after_none _) eq_refl eq_refl eq_refl eq_refl eq_refl)
    as (s2' & Hrun2 & Hprompts & _).
  exists s2'. split; assumption.
Defined.

(** * More of [main.c] *)

(** ** The key, further *)

Lemma string_app_assoc (a b c : string) : (a ++ b) ++ c = a ++ b ++ c.
Proof. induction a as [|x a IH]; simpl; [reflexivity | now rewrite IH]. Qed.

Lemma strlen_truncate n u : strlen (truncate n u) = Nat.min n (strlen u).
Proof.
  revert u. induction n as [|n IH]; intros [|x u]; simpl; try reflexivity.
  unfold strlen in *. simpl. now rewrite IH.
Qed.

Lemma truncate_truncate n u : truncate n (truncate n u) = truncate n u.
Proof.
  revert u. induction n as [|n IH]; intros [|x u]; simpl; try reflexivity.
  now rewrite IH.
Qed.

Lemma offset_truncate n m u :
  offset n (truncate (n + m) u) = truncate m (offset n u).
Proof.
  revert u. induction n as [|n IH]; intros u; simpl.
  - now destruct (truncate m u).
  - destruct u as [|x u]; simpl; [now destruct m | apply IH].
Qed.

Lemma truncate_split n m u :
  truncate (n + m) u = truncate n u ++ truncate m (offset n u).
Proof.
  revert u. induction n as [|n IH]; intros u; simpl.
  - now destruct u.
  - destruct u as [|x u]; simpl; [now destruct m | now rewrite IH].
Qed.

Lemma strchr_truncate q c j :
  strchr q c = Some j -> strchr (truncate (S j) q) c = Some j.
Proof.
  revert j. induction q as [|x q IH]; intros j; [discriminate|].
  cbn [strchr truncate]. destruct (Ascii.eqb x c); [trivial|].
  destruct (strchr q c) as [i|]; [|discriminate].
  intros [= <-]. now rewrite (IH i eq_refl).
Qed.

Lemma last_char_append a b :
  b <> EmptyString -> last_char (a ++ b) = last_char b.
Proof.
  intros Hb. induction a as [|x a IH]; [reflexivity|].
  cbn [append last_char]. rewrite IH.
  destruct (a ++ b) eqn:E; [|reflexivity].
  destruct a; simpl in E; congruence.
Qed.

Lemma last_char_strchr q c j :
  strchr q c = Some j -> last_char (truncate (S j) q) = Some c.
Proof.
  revert j. induction q as [|x q IH]; intros j; [discriminate|].
  cbn [strchr]. destruct (Ascii.eqb_spec x c) as [->|Hx].
  - intros [= <-]. now destruct q.
  - destruct (strchr q c) as [i|] eqn:E; [|discriminate].
    intros [= <-]. specialize (IH i eq_refl).
    cbn [truncate] in *. destruct q as [|y q]; [discriminate|].
    cbn [truncate last_char] in *. exact IH.
Qed.

Lemma first_slash_some u i :
  first_slash u = Some i ->
  exists j,
    i = 8 + j
    /\ strchr (offset 8 u) slash = Some j
    /\ i < strlen u.
Proof.
  unfold first_slash. change (strlen https_prefix) with 8.
  destruct (Nat.ltb_spec 8 (strlen u)) as [Hlen|]; [|discriminate].
  destruct (strchr (offset 8 u) slash) as [j|] eqn:E; [|discriminate].
  intros [= <-]. exists j. repeat split.
  apply strchr_bound in E. rewrite strlen_offset in E. lia.
Qed.

Lemma first_slash_truncate u i :
  first_slash u = Some i -> first_slash (truncate (i + 1) u) = Some i.
Proof.
  intros H. destruct (first_slash_some u i H) as (j & -> & Hj & Hlen).
  unfold first_slash. change (strlen https_prefix) with 8.
  rewrite strlen_truncate.
  replace (Nat.ltb 8 (Nat.min (8 + j + 1) (strlen u))) with true
    by (symmetry; apply Nat.ltb_lt; lia).
  replace (8 + j + 1) with (8 + S j) by lia.
  now rewrite offset_truncate, (strchr_truncate _ _ _ Hj).
Qed.

(** X1: the key of a key is that key. *)
Theorem trim_repository_idempotent u :
  trim_repository (trim_repository u) = trim_repository u.
Proof.
  unfold trim_repository at 2 3.
  destruct (first_slash u) as [i|] eqn:E.
  - unfold trim_repository. rewrite (first_slash_truncate _ _ E).
    apply truncate_truncate.
  - unfold trim_repository. now rewrite E.
Qed.

(** X2: the key is an initial part of the URL; either it is the whole
    URL, or it is longer than ["https://"] and stops on a slash, the
    first one found from the ninth character on. *)
Theorem trim_repository_prefix u :
  (exists rest, u = trim_repository u ++ rest)
  /\ (trim_repository u = u
      \/ (8 < strlen (trim_repository u)
          /\ last_char (trim_repository u) = Some slash
          /\ strchr (offset 8 u) slash =
             Some (strlen (trim_repository u) - 9))).
Proof.
  unfold trim_repository.
  destruct (first_slash u) as [i|] eqn:E.
  - destruct (first_slash_some u i E) as (j & -> & Hj & Hlen). split.
    + exists (offset (8 + j + 1) u). symmetry. apply truncate_offset. lia.
    + right. rewrite strlen_truncate.
      replace (Nat.min (8 + j + 1) (strlen u)) with (8 + j + 1) by lia.
      split; [lia|]. split.
      * replace (8 + j + 1) with (8 + S j) by lia.
        rewrite truncate_split, last_char_append.
        -- now apply last_char_strchr.
        -- destruct (offset 8 u); [discriminate | discriminate].
      * rewrite Hj. f_equal. lia.
  - split; [exists EmptyString | now left].
    clear E. induction u as [|x u IH]; simpl; [reflexivity | now rewrite <- IH].
Qed.

Lemma trim_repository_key p r :
  8 <= strlen p ->
  strchr (offset 8 p) slash = None ->
  trim_repository (p ++ String slash r) = p ++ String slash EmptyString.
Proof.
  intros Hlen Hp. rewrite trim_repository_shared by exact Hlen.
  unfold trim_repository.
  rewrite first_slash_shared by exact Hlen.
  change (strlen https_prefix) with 8. rewrite Hp.
  replace (8 + (strlen p - 8) + 1) with (strlen (p ++ String slash EmptyString)).
  - apply truncate_all.
  - rewrite strlen_append. unfold strlen in *. simpl. lia.
Qed.

Lemma append_char_inj a b c :
  a ++ String c EmptyString = b ++ String c EmptyString -> a = b.
Proof.
  revert b. induction a as [|x a IH]; intros [|y b]; simpl; intros H.
  - reflexivity.
  - injection H as _ H. destruct b; discriminate.
  - injection H as _ H. destruct a; discriminate.
  - injection H as -> H. f_equal. now apply IH.
Qed.

(** X3: two URLs whose scheme-and-host parts are at least eight
    characters long and hold no slash from the ninth character on get
    the same key only if these parts are the same: a key never serves
    two such hosts. *)
Theorem trim_repository_separates_hosts
  scheme1 host1 path1 scheme2 host2 path2 :
  8 <= strlen (scheme1 ++ "://" ++ host1) ->
  8 <= strlen (scheme2 ++ "://" ++ host2) ->
  strchr (offset 8 (scheme1 ++ "://" ++ host1)) slash = None ->
  strchr (offset 8 (scheme2 ++ "://" ++ host2)) slash = None ->
  trim_repository (url scheme1 host1 path1) =
  trim_repository (url scheme2 host2 path2) ->
  scheme1 ++ "://" ++ host1 = scheme2 ++ "://" ++ host2.
Proof.
  intros H1 H2 N1 N2. unfold url.
  change ("/" ++ path1) with (String slash path1).
  change ("/" ++ path2) with (String slash path2).
  rewrite !trim_repository_key by assumption.
  apply append_char_inj.
Qed.

Lemma trim_repository_separates_hosts_witness :
  trim_repository (url "https" "a.example" "x.git") <>
  trim_repository (url "https" "b.example" "x.git").
Proof.
  intros H.
  apply (trim_repository_separates_hosts
           "https" "a.example" "x.git" "https" "b.example" "x.git") in H;
    [discriminate | | | | ]; vm_compute; try reflexivity; lia.
Defined.

Lemma url_long_scheme scheme host path :
  url scheme host path =
  (scheme ++ ":/") ++ String slash (host ++ "/" ++ path).
Proof.
  unfold url. rewrite !string_app_assoc. reflexivity.
Qed.

(** X4: the search for the slash starts at the ninth character whatever
    the scheme, so with a scheme of six characters or more it stops on
    a slash of [://]: the key then says nothing of the host, and all
    the remotes of that scheme share one key. *)
Theorem trim_repository_long_scheme scheme host1 path1 host2 path2 :
  6 <= strlen scheme ->
  trim_repository (url scheme host1 path1) =
  trim_repository (url scheme host2 path2).
Proof.
  intros Hlen. rewrite !url_long_scheme.
  assert (H8 : strlen https_prefix <= strlen (scheme ++ ":/")).
  { rewrite strlen_append. unfold strlen in *. simpl. lia. }
  rewrite (trim_repository_shared _ (host1 ++ "/" ++ path1)) by exact H8.
  rewrite (trim_repository_shared _ (host2 ++ "/" ++ path2)) by exact H8.
  reflexivity.
Qed.

Lemma trim_repository_long_scheme_witness :
  trim_repository (url "svn+ssh" "a.example" "x") =
  trim_repository (url "svn+ssh" "b.example" "y/z").
Proof.
  apply trim_repository_long_scheme. vm_compute. lia.
Defined.

(** ** Reading the remote URL *)

Lemma last_char_newline s : last_char (s ++ nl) = Some newline.
Proof. now rewrite last_char_append. Qed.

Lemma truncate_exact s r : truncate (strlen s) (s ++ r) = s.
Proof.
  induction s as [|x s IH]; simpl; [now destruct r | now rewrite IH].
Qed.

Lemma strchr_none_last s c :
  strchr s c = None -> last_char s <> Some c.
Proof.
  induction s as [|x s IH]; [discriminate|].
  cbn [strchr last_char]. destruct (Ascii.eqb_spec x c) as [|Hx]; [discriminate|].
  destruct (strchr s c); [discriminate|]. intros _.
  destruct s; [congruence | now apply IH].
Qed.

Lemma last_char_none s : last_char s = None -> s = EmptyString.
Proof.
  induction s as [|a s IH]; [reflexivity|].
  cbn [last_char]. destruct s; [discriminate|].
  intros H. now specialize (IH H).
Qed.

Lemma trim_trailing_whitespace_keeps s :
  s <> EmptyString ->
  last_char s <> Some newline -> trim_trailing_whitespace s = Some s.
Proof.
  unfold trim_trailing_whitespace. intros Hs H.
  destruct (last_char s) as [c|] eqn:E.
  - destruct (Ascii.eqb_spec c newline) as [->|]; congruence.
  - now apply last_char_none in E.
Qed.

Lemma trim_trailing_whitespace_strips s :
  trim_trailing_whitespace (s ++ nl) = Some s.
Proof.
  unfold trim_trailing_whitespace.
  rewrite last_char_newline, Ascii.eqb_refl, strlen_append.
  replace (strlen s + strlen nl - 1) with (strlen s)
    by (unfold strlen; simpl; lia).
  now rewrite truncate_exact.
Qed.

(** X5: despite its name [trim_trailing_whitespace] removes one final
    newline and nothing else: a string that ends in a newline loses
    that newline only, and a string that is not empty and does not end
    in a newline, were it in spaces, is returned as it is.  The empty
    string is the one argument on which the function reads, and may
    write, the byte before the string. *)
Theorem trim_trailing_whitespace_one_newline s :
  trim_trailing_whitespace (s ++ nl) = Some s
  /\ (s <> EmptyString ->
      last_char s <> Some newline -> trim_trailing_whitespace s = Some s)
  /\ (trim_trailing_whitespace s = None <-> s = EmptyString).
Proof.
  split; [apply trim_trailing_whitespace_strips|].
  split; [apply trim_trailing_whitespace_keeps|].
  unfold trim_trailing_whitespace. split.
  - destruct (last_char s) eqn:E; [discriminate|].
    intros _. now apply last_char_none.
  - now intros ->.
Qed.

Lemma trim_trailing_whitespace_one_newline_witness :
  "origin  " <> EmptyString
  /\ last_char "origin  " <> Some newline
  /\ trim_trailing_whitespace "origin  " = Some "origin  "
  /\ trim_trailing_whitespace (("origin" ++ nl) ++ nl) = Some ("origin" ++ nl).
Proof.
  split; [discriminate|]. split; [vm_compute; discriminate|]. split.
  - apply (proj1 (proj2 (trim_trailing_whitespace_one_newline "origin  "))).
    + discriminate.
    + vm_compute. discriminate.
  - apply (proj1 (trim_trailing_whitespace_one_newline ("origin" ++ nl))).
Defined.

Lemma read_line_bounds n :
  forall input,
    strlen (read_line n input) <= n
    /\ (exists rest, input = read_line n input ++ rest)
    /\ (strchr (read_line n input) newline = None
        \/ strchr (read_line n input) newline =
           Some (strlen (read_line n input) - 1)).
Proof.
  induction n as [|n IH]; intros input.
  - simpl. repeat split; [unfold strlen; simpl; lia | now exists input | now left].
  - destruct input as [|a t]; cbn [read_line].
    + repeat split; [unfold strlen; simpl; lia | now exists EmptyString
                    | now left].
    + destruct (Ascii.eqb_spec a newline) as [->|Ha].
      * repeat split; [unfold strlen; simpl; lia | now exists t |].
        right. reflexivity.
      * destruct (IH t) as (Hlen & [rest Hrest] & Hnl).
        repeat split.
        -- unfold strlen in *. simpl. lia.
        -- exists rest. simpl. now rewrite <- Hrest.
        -- cbn [strchr]. apply Ascii.eqb_neq in Ha. rewrite Ha.
           destruct Hnl as [-> | Hnl]; [now left | right].
           rewrite Hnl. apply strchr_bound in Hnl.
           unfold strlen in *. simpl. f_equal. lia.
Qed.

(** What [fgets] hands over is an initial part of what the stream
    holds, of at most [n - 1] characters, in which a newline can only
    be the last character; it hands over nothing exactly when the
    stream is at its end. *)
Lemma fgets_line n input :
  (fgets n input = None <-> input = EmptyString)
  /\ forall line,
      fgets n input = Some line ->
      strlen line <= n - 1
      /\ (exists rest, input = line ++ rest)
      /\ (strchr line newline = None
          \/ strchr line newline = Some (strlen line - 1)).
Proof.
  split.
  - destruct input; simpl; split; congruence.
  - intros line H. destruct input as [|a t]; [discriminate|].
    injection H as <-. apply read_line_bounds.
Qed.

Lemma fgets_not_empty n input line :
  2 <= n -> fgets n input = Some line -> line <> EmptyString.
Proof.
  intros Hn. destruct n as [|[|n]]; [lia | lia |].
  destruct input as [|a t]; [discriminate|]. simpl.
  destruct (Ascii.eqb a newline); intros [= <-]; discriminate.
Qed.

Lemma strchr_last_split line c :
  strchr line c = Some (strlen line - 1) ->
  exists t, line = t ++ String c EmptyString /\ strchr t c = None.
Proof.
  induction line as [|a line IH]; [discriminate|].
  cbn [strchr]. destruct (Ascii.eqb_spec a c) as [->|Ha].
  - intros [= H]. exists EmptyString. split; [|reflexivity].
    unfold strlen in H. simpl in H. destruct line; [reflexivity|].
    simpl in H. lia.
  - destruct (strchr line c) as [i|] eqn:E; [|discriminate].
    intros [= H]. assert (Hi := strchr_bound _ _ _ E).
    unfold strlen in *. simpl in H.
    destruct IH as (t & -> & Ht); [f_equal; lia|].
    exists (String a t). split; [reflexivity|].
    cbn [strchr]. apply Ascii.eqb_neq in Ha. now rewrite Ha, Ht.
Qed.

(** X6: whatever the command prints, a string that [git_config] returns
    is an initial part of that output, has at most 1023 characters and
    holds no newline; the command has ended with status 0, and the one
    call made is the [popen] of [git config] followed by the key. *)
Theorem git_config_result {terminal} w key s url s' :
  git_config w terminal key s = Returned url s' ->
  strlen url <= 1023
  /\ strchr url newline = None
  /\ s' = log (Popen ("git config " ++ key)) s
  /\ exists output rest,
      os_popen w ("git config " ++ key) = Some (output, 0%Z)
      /\ output = url ++ rest.
Proof.
  unfold git_config, bind, popen.
  destruct (os_popen w ("git config " ++ key)) as [[output status]|];
    [|by_terminal].
  destruct (Z.eqb_spec status 0) as [->|]; cbn [negb]; [|by_terminal].
  destruct (fgets 1024 output) as [line|] eqn:Hfgets; [|discriminate].
  assert (Hline : line <> EmptyString)
    by (apply (fgets_not_empty 1024 output); [lia | exact Hfgets]).
  destruct (proj2 (fgets_line 1024 output) line Hfgets)
    as (Hlen & [rest ->] & [Hnl|Hnl]).
  - rewrite trim_trailing_whitespace_keeps
      by (try assumption; now apply strchr_none_last).
    intros [= <- <-].
    repeat split; [simpl in Hlen; lia | exact Hnl |].
    now exists (line ++ rest), rest.
  - destruct (strchr_last_split _ _ Hnl) as (t & -> & Ht).
    change (String newline EmptyString) with nl.
    rewrite trim_trailing_whitespace_strips.
    intros [= <- <-].
    rewrite strlen_append in Hlen.
    repeat split; [simpl in Hlen; lia | exact Ht |].
    exists ((t ++ nl) ++ rest), (nl ++ rest). split; [reflexivity|].
    apply string_app_assoc.
Qed.

Lemma git_config_result_witness :
  strlen "https://example.com/org/repo.git" <= 1023
  /\ strchr "https://example.com/org/repo.git" newline = None.
Proof.
  destruct (git_config_result (terminal := opened) git_world
              "remote.origin.url" (start [])
              "https://example.com/org/repo.git"
              (log (Popen "git config remote.origin.url") (start []))
              eq_refl) as (Hlen & Hnl & _).
  split; assumption.
Defined.

Lemma read_line_first n line rest :
  strchr line newline = None ->
  strlen line < n ->
  read_line n (line ++ String newline rest) = line ++ nl.
Proof.
  revert n. induction line as [|a line IH]; intros n Hnl Hlen.
  - destruct n; [unfold strlen in Hlen; simpl in Hlen; lia|].
    reflexivity.
  - destruct n; [lia|]. cbn [strchr] in Hnl. cbn [append read_line].
    destruct (Ascii.eqb a newline); [discriminate|].
    rewrite IH; [reflexivity | | unfold strlen in *; simpl in Hlen; lia].
    now destruct (strchr line newline).
Qed.

Lemma read_line_long n :
  forall input,
    strchr (truncate n input) newline = None ->
    read_line n input = truncate n input.
Proof.
  induction n as [|n IH]; intros [|a t]; try reflexivity.
  cbn [truncate strchr read_line].
  destruct (Ascii.eqb a newline); [discriminate|].
  intros H. rewrite IH; [reflexivity|].
  now destruct (strchr (truncate n t) newline).
Qed.

(** X7: when the command succeeds and the first line of what it prints
    has at most 1022 characters, [git_config] returns that line without
    its newline, after one [popen] of [git config] followed by the
    key; whatever else the command prints is not read. *)
Theorem git_config_first_line {terminal} w key s line rest :
  os_popen w ("git config " ++ key) = Some (line ++ String newline rest, 0%Z) ->
  strchr line newline = None ->
  strlen line <= 1022 ->
  git_config w terminal key s = Returned line (log (Popen ("git config " ++ key)) s).
Proof.
  intros Hpopen Hnl Hlen. unfold git_config, bind, popen.
  rewrite Hpopen. cbn [Z.eqb negb].
  assert (Hfgets : fgets 1024 (line ++ String newline rest) = Some (line ++ nl)).
  { transitivity (Some (read_line 1023 (line ++ String newline rest)));
      [now destruct line|].
    f_equal. apply read_line_first; [exact Hnl | lia]. }
  rewrite Hfgets. unfold ret. now rewrite trim_trailing_whitespace_strips.
Qed.

Lemma git_config_first_line_witness :
  git_config git_world opened "remote.origin.url" (start []) =
  Returned "https://example.com/org/repo.git"
    (log (Popen "git config remote.origin.url") (start [])).
Proof.
  apply (git_config_first_line git_world "remote.origin.url" (start [])
           "https://example.com/org/repo.git" EmptyString);
    [reflexivity | reflexivity | vm_compute; lia].
Defined.

(** X8: the buffer of [git_config] has 1024 bytes: of a first line that
    goes on for 1023 characters or more, the first 1023 are returned
    and the rest is dropped without any diagnostic. *)
Theorem git_config_long_line {terminal} w key s output :
  os_popen w ("git config " ++ key) = Some (output, 0%Z) ->
  1023 <= strlen output ->
  strchr (truncate 1023 output) newline = None ->
  git_config w terminal key s =
  Returned (truncate 1023 output) (log (Popen ("git config " ++ key)) s).
Proof.
  intros Hpopen Hlen Hnl. unfold git_config, bind, popen.
  rewrite Hpopen. cbn [Z.eqb negb].
  assert (Hfgets : fgets 1024 output = Some (truncate 1023 output)).
  { unfold fgets. destruct output as [|a t];
      [unfold strlen in Hlen; simpl in Hlen; lia|].
    change (1024 - 1) with 1023. f_equal. now apply read_line_long. }
  rewrite Hfgets. unfold ret.
  rewrite trim_trailing_whitespace_keeps; [reflexivity | |].
  - destruct output; [unfold strlen in Hlen; simpl in Hlen; lia | discriminate].
  - now apply strchr_none_last.
Qed.

Lemma git_config_long_line_witness :
  git_config (with_popen git_world (Some (filler 1100, 0%Z))) opened
    "remote.origin.url" (start []) =
  Returned (filler 1023)
    (log (Popen "git config remote.origin.url") (start [])).
Proof.
  change (filler 1023) with (truncate 1023 (filler 1100)).
  apply git_config_long_line;
    [reflexivity | vm_compute; lia | vm_compute; reflexivity].
Defined.

(** ** When the environment fails *)


Lemma resolve_starts_with_config {terminal} w p s :
  exists k, resolve w terminal p s = bind (git_origin_url w terminal) k s.
Proof. destruct p; eexists; reflexivity. Qed.

Lemma main_verified w fuel program p s s1 :
  is_git_calling_us w (os_fdopen w) fuel s = Returned true s1 ->
  main w fuel [program; purpose_arg p] s =
  (value <- resolve w (os_fdopen w) p ;; printf value ;;; ret 0%Z) s1.
Proof.
  intros H. rewrite main_unfold, (bind_returned _ _ _ _ _ H).
  cbn [negb]. now rewrite dispatch_resolve.
Qed.

Lemma verified_start {terminal} w fuel kc b s1 :
  is_git_calling_us w terminal fuel (start kc) = Returned b s1 ->
  keychain s1 = kc /\ stdout s1 = EmptyString /\ stderr s1 = EmptyString
  /\ prompts s1 = 0.
Proof.
  intros H.
  assert (Hf := is_git_calling_us_frame (terminal := terminal) w fuel
                  (start kc)).
  rewrite H in Hf. destruct Hf as [(Hk & Ho & Hp & _) He]. auto.
Qed.

(** X9: git is the caller, [fdopen] gave a stream, but the remote URL
    cannot be read.  When [popen] fails the program exits with
    [fatal: popen failed]; when the command ends with a status other
    than 0, as [git config] does for a repository without
    [remote.origin.url], it exits with [fatal: reading from git failed].
    Either way the exit status is -1, the keychain is neither read nor
    written, nothing is asked and nothing is printed on standard
    output. *)
Theorem main_without_remote w fuel program p kc s1 :
  os_fdopen w <> None ->
  is_git_calling_us w (os_fdopen w) fuel (start kc) = Returned true s1 ->
  (os_popen w config_command = None ->
   exists s',
     main w fuel [program; purpose_arg p] (start kc) = Exited (-1) s'
     /\ stderr s' = "fatal: popen failed" ++ nl
     /\ calls s' = (calls s1 ++ [Popen config_command])%list
     /\ keychain s' = kc /\ stdout s' = EmptyString /\ prompts s' = 0)
  /\ (forall output status,
         os_popen w config_command = Some (output, status) ->
         status <> 0%Z ->
         exists s',
           main w fuel [program; purpose_arg p] (start kc) = Exited (-1) s'
           /\ stderr s' = "fatal: reading from git failed" ++ nl
           /\ calls s' = (calls s1 ++ [Popen config_command])%list
           /\ keychain s' = kc /\ stdout s' = EmptyString /\ prompts s' = 0).
Proof.
  intros Hopen Hgit.
  destruct (verified_start _ _ _ _ _ Hgit) as (Hk & Ho & He & Hp).
  rewrite (main_verified _ _ _ _ _ _ Hgit).
  destruct (resolve_starts_with_config (terminal := os_fdopen w) w p s1)
    as [k Hk'].
  split.
  - intros Hpopen. eexists. split.
    + apply bind_exited. rewrite Hk'. apply bind_exited.
      unfold git_origin_url, git_config, bind, popen.
      change ("git config " ++ "remote.origin.url") with config_command.
      rewrite Hpopen. now apply fatal_exits.
    + simpl. rewrite He. auto.
  - intros output status Hpopen Hstatus. eexists. split.
    + apply bind_exited. rewrite Hk'. apply bind_exited.
      unfold git_origin_url, git_config, bind, popen.
      change ("git config " ++ "remote.origin.url") with config_command.
      rewrite Hpopen. apply Z.eqb_neq in Hstatus. rewrite Hstatus.
      now apply fatal_exits.
    + simpl. rewrite He. auto.
Qed.

Lemma main_without_remote_witness :
  exists s',
    main (with_popen git_world (Some (EmptyString, 1%Z))) 3
      ["git-password"; "Username: "] (start []) = Exited (-1) s'
    /\ stderr s' = "fatal: reading from git failed" ++ nl
    /\ prompts s' = 0.
Proof.
  assert (Hopen :
            os_fdopen (with_popen git_world (Some (EmptyString, 1%Z))) <> None)
    by discriminate.
  destruct (main_without_remote (with_popen git_world (Some (EmptyString, 1%Z)))
              3 "git-password" Username [] _ Hopen eq_refl) as [_ Hstatus].
  destruct (Hstatus EmptyString 1%Z eq_refl) as (s' & Hrun & Herr & _ & _ & _ & Hp);
    [discriminate|].
  exists s'. repeat split; assumption.
Defined.

(** X10: git is the caller and the command succeeds but prints nothing.
    [git_config] does not look at what [fgets] returns and goes on to
    copy a buffer that was never written: from there on the behaviour
    of the program is undefined; up to there it has called neither the
    keychain nor the terminal. *)
Theorem main_empty_remote w fuel program p kc s1 :
  is_git_calling_us w (os_fdopen w) fuel (start kc) = Returned true s1 ->
  os_popen w config_command = Some (EmptyString, 0%Z) ->
  exists s',
    main w fuel [program; purpose_arg p] (start kc) = Undefined s'
    /\ calls s' = (calls s1 ++ [Popen config_command])%list
    /\ keychain s' = kc /\ stdout s' = EmptyString
    /\ stderr s' = EmptyString /\ prompts s' = 0.
Proof.
  intros Hgit Hpopen.
  destruct (verified_start _ _ _ _ _ Hgit) as (Hk & Ho & He & Hp).
  rewrite (main_verified _ _ _ _ _ _ Hgit).
  destruct (resolve_starts_with_config (terminal := os_fdopen w) w p s1)
    as [k Hk'].
  eexists. split.
  - apply bind_undefined. rewrite Hk'. apply bind_undefined.
    unfold git_origin_url, git_config, bind, popen.
    change ("git config " ++ "remote.origin.url") with config_command.
    rewrite Hpopen. reflexivity.
  - simpl. auto.
Qed.

Lemma main_empty_remote_witness :
  exists s',
    main (with_popen git_world (Some (EmptyString, 0%Z))) 3
      ["git-password"; "Password: "] (start []) = Undefined s'
    /\ prompts s' = 0.
Proof.
  destruct (main_empty_remote (with_popen git_world (Some (EmptyString, 0%Z)))
              3 "git-password" Password [] _ eq_refl eq_refl)
    as (s' & Hrun & _ & _ & _ & _ & Hp).
  exists s'. split; assumption.
Defined.

(** X11: when either read of the whole process table fails, the
    program, whose [fdopen] gave it a stream, exits with
    [fatal: sysctl failed] and status -1 whatever its arguments and the
    fuel: no pid is looked up, the keychain is not touched, nothing is
    asked, nothing is printed. *)
Theorem main_sysctl_failure w fuel argv kc :
  os_fdopen w <> None ->
  os_proc_all_size w = false \/ os_proc_all w = None ->
  exists s',
    main w fuel argv (start kc) = Exited (-1) s'
    /\ stderr s' = "fatal: sysctl failed" ++ nl
    /\ stdout s' = EmptyString
    /\ keychain s' = kc
    /\ pid_reads s' = 0 /\ prompts s' = 0
    /\ (calls s' = [Getppid; SysctlProcAll false]
        \/ calls s' = [Getppid; SysctlProcAll false; SysctlProcAll true]).
Proof.
  intros Hopen H. rewrite main_unfold.
  unfold is_git_calling_us, bind, getppid, sysctl_proc_all_size,
    sysctl_proc_all.
  destruct (os_proc_all_size w) eqn:Hsize; cbn [negb].
  - destruct H as [H|H]; [discriminate|]. rewrite H.
    rewrite fatal_exits by exact Hopen.
    eexists. split; [reflexivity|]. simpl. repeat split. now right.
  - rewrite fatal_exits by exact Hopen.
    eexists. split; [reflexivity|]. simpl. repeat split. now left.
Qed.

Lemma main_sysctl_failure_witness :
  exists s',
    main (with_sysctl git_world true None (fun _ _ => None)) 0
      ["git-password"; "Password: "] (start []) = Exited (-1) s'
    /\ stderr s' = "fatal: sysctl failed" ++ nl.
Proof.
  assert (Hopen :
            os_fdopen (with_sysctl git_world true None (fun _ _ => None))
            <> None) by discriminate.
  destruct (main_sysctl_failure
              (with_sysctl git_world true None (fun _ _ => None)) 0
              ["git-password"; "Password: "] [] Hopen (or_intror eq_refl))
    as (s' & Hrun & Herr & _).
  exists s'. split; assumption.
Defined.

(** X12: the loop reads the record of a pid before it compares the name
    of that pid.  When the read of the parent fails the program, whose
    [fdopen] gave it a stream, exits with
    [fatal: sysctl PROC_PID failed] and status -1, whatever the name of
    the parent: a parent called git is not trusted then, the keychain
    is not touched and nothing is asked. *)
Theorem main_read_failure w fuel argv kc processes process :
  os_fdopen w <> None ->
  os_proc_all_size w = true ->
  os_proc_all w = Some processes ->
  stops (os_getppid w) = false ->
  scan processes (os_getppid w) = Some process ->
  os_proc_pid w 0 (os_getppid w) = None ->
  exists s',
    main w (S fuel) argv (start kc) = Exited (-1) s'
    /\ stderr s' = "fatal: sysctl PROC_PID failed" ++ nl
    /\ stdout s' = EmptyString
    /\ keychain s' = kc
    /\ prompts s' = 0
    /\ calls s' = [Getppid; SysctlProcAll false; SysctlProcAll true;
                   SysctlProcPid (os_getppid w)].
Proof.
  intros Hopen Hsize Hall Hstop Hscan Hread. rewrite main_unfold.
  eexists. split.
  - apply bind_exited.
    rewrite (is_git_calling_us_walk _ _ processes) by assumption.
    rewrite walk_S, Hstop, Hscan. cbn [pid_reads after_snapshot log start].
    rewrite Hread. now apply fatal_exits.
  - simpl. repeat split.
Qed.

Lemma main_read_failure_witness :
  exists s',
    main (with_sysctl git_world true (Some [proc 10 1 "git"])
            (fun _ _ => None)) 1
      ["git-password"; "Password: "] (start []) = Exited (-1) s'
    /\ stderr s' = "fatal: sysctl PROC_PID failed" ++ nl.
Proof.
  destruct (main_read_failure
              (with_sysctl git_world true (Some [proc 10 1 "git"])
                 (fun _ _ => None)) 0
              ["git-password"; "Password: "] [] [proc 10 1 "git"]
              {| p_pid := 10; p_comm := "git" |}
              ltac:(discriminate) eq_refl eq_refl eq_refl eq_refl eq_refl)
    as (s' & Hrun & Herr & _).
  exists s'. split; assumption.
Defined.

(** ** The two output streams *)

Section Tidy.

Variable w : world.
Variable terminal : option FILE.

Lemma tidily_ret {A} (a : A) : tidily w terminal (ret a).
Proof. intros s. now split. Qed.

Lemma tidily_undefined {A} : tidily w terminal (@undefined A).
Proof. intros s. now split. Qed.

Lemma tidily_fatal {A} message :
  diagnostic w message -> tidily w terminal (@fatal A message terminal).
Proof.
  intros Hm s. destruct terminal as [[]|] eqn:E; simpl; [|now split].
  repeat split; [discriminate|]. now exists message.
Qed.

Lemma tidily_bind {A B} (c : M A) (k : A -> M B) :
  tidily w terminal c -> (forall a, tidily w terminal (k a)) -> tidily w terminal (bind c k).
Proof.
  intros Hc Hk s. specialize (Hc s). unfold bind.
  destruct (c s) as [a s1|st s1|s1|]; try exact Hc.
  destruct Hc as [Ho He]. specialize (Hk a s1).
  destruct (k a s1) as [b s2|st s2|s2|]; simpl in *.
  - destruct Hk. split; congruence.
  - destruct Hk as (Hst & Hopen & Ho2 & message & Hm & He2).
    repeat split; [exact Hst | exact Hopen | congruence |].
    exists message. split; [exact Hm | congruence].
  - destruct Hk. split; congruence.
  - exact I.
Qed.

Lemma tidily_if {A} (b : bool) (c1 c2 : M A) :
  tidily w terminal c1 -> tidily w terminal c2 -> tidily w terminal (if b then c1 else c2).
Proof. now destruct b. Qed.

Lemma security_tidy status : tidily w terminal (security w terminal status).
Proof.
  unfold security, security_fatal.
  destruct (Z.eqb_spec status 0) as [|Hstatus]; cbn [negb].
  - apply tidily_ret.
  - apply tidily_fatal. right. now exists status.
Qed.

Lemma popen_tidy command : tidily w terminal (popen w command).
Proof. intros s. now split. Qed.

Lemma prompt_tidy text : tidily w terminal (prompt w text).
Proof.
  intros s. unfold prompt, bind, getpass, store. simpl.
  destruct (Nat.ltb _ _); now split.
Qed.

Lemma find_tidy service :
  tidily w terminal (SecKeychainFindGenericPassword w service).
Proof.
  intros s. unfold SecKeychainFindGenericPassword.
  destruct (injected w FindGenericPassword); [now split|].
  destruct (first_of_service service (keychain s)); now split.
Qed.

Lemma attribute_info_tidy : tidily w terminal (SecKeychainAttributeInfoForItemID w).
Proof. intros s. rewrite attribute_info_reports. now split. Qed.

Lemma copy_tidy item with_data :
  tidily w terminal (SecKeychainItemCopyAttributesAndData w item with_data).
Proof. intros s. rewrite copy_reports. now split. Qed.

Lemma create_tidy attributes secret :
  tidily w terminal (SecKeychainItemCreateFromContent w attributes secret).
Proof.
  intros s. unfold SecKeychainItemCreateFromContent.
  destruct (injected w ItemCreateFromContent);
    [|destruct (existsb _ _)]; now split.
Qed.

Lemma git_config_tidy key : tidily w terminal (git_config w terminal key).
Proof.
  unfold git_config. apply tidily_bind; [apply popen_tidy|].
  intros [[output status]|].
  - destruct (negb (status =? 0)%Z).
    + apply tidily_fatal. left. simpl. tauto.
    + destruct (fgets 1024 output) as [result|]; [|apply tidily_undefined].
      destruct (trim_trailing_whitespace result);
        [apply tidily_ret | apply tidily_undefined].
  - apply tidily_fatal. left. simpl. tauto.
Qed.

Lemma find_keychain_item_tidy repository include_password :
  tidily w terminal (find_keychain_item w terminal repository include_password).
Proof.
  unfold find_keychain_item. apply tidily_bind; [apply find_tidy|].
  intros [status item].
  destruct (status =? errSecSuccess)%Z.
  - destruct item as [item|]; [|apply tidily_undefined].
    apply tidily_bind; [apply attribute_info_tidy|]. intros st.
    apply tidily_bind; [apply security_tidy|]. intros _.
    apply tidily_bind; [apply copy_tidy|].
    intros [[st' attributes] secret].
    apply tidily_bind; [apply security_tidy|]. intros _. apply tidily_ret.
  - destruct (status =? errSecItemNotFound)%Z; [apply tidily_ret|].
    apply tidily_bind; [apply security_tidy|]. intros _. apply tidily_ret.
Qed.

Lemma create_keychain_item_tidy repository username password :
  tidily w terminal (create_keychain_item w terminal repository username password).
Proof.
  unfold create_keychain_item.
  apply tidily_bind; [apply create_tidy | apply security_tidy].
Qed.

Lemma resolve_tidy p : tidily w terminal (resolve w terminal p).
Proof.
  destruct p; simpl; unfold get_username, get_password, git_origin_url;
    (apply tidily_bind; [apply git_config_tidy|]; intros url;
     apply tidily_bind; [apply find_keychain_item_tidy|]; intros [item|];
     [apply tidily_ret|]).
  - apply tidily_bind; [apply prompt_tidy|]. intros username.
    apply tidily_bind; [apply prompt_tidy|]. intros password.
    apply tidily_bind; [apply create_keychain_item_tidy|]. intros _.
    apply tidily_ret.
  - apply tidily_bind; [apply prompt_tidy|]. intros password.
    apply tidily_bind; [apply create_keychain_item_tidy|]. intros _.
    apply tidily_ret.
Qed.

Lemma walk_tidy processes fuel :
  forall pid, tidily w terminal (walk w terminal fuel processes pid).
Proof.
  induction fuel as [|fuel IH]; intros pid s.
  - rewrite walk_O. destruct (stops pid); simpl; [now split | exact I].
  - rewrite walk_S.
    destruct (stops pid); [now split|].
    destruct (scan processes pid) as [process|]; [|now split].
    destruct (os_proc_pid w (pid_reads s) pid) as [info|].
    + destruct (streq (p_comm process) "git"); [now split|].
      specialize (IH (e_ppid (kp_eproc info)) (after_read pid s)).
      destruct (walk w terminal fuel processes _ _); exact IH.
    + assert (Hm : diagnostic w "sysctl PROC_PID failed")
        by (left; simpl; tauto).
      exact (tidily_fatal (A := bool) _ Hm (after_read pid s)).
Qed.

Lemma is_git_calling_us_tidy fuel : tidily w terminal (is_git_calling_us w terminal fuel).
Proof.
  unfold is_git_calling_us.
  apply tidily_bind; [intros s; now split|]. intros parent_pid.
  apply tidily_bind; [intros s; now split|]. intros ok.
  destruct (negb ok); [apply tidily_fatal; left; simpl; tauto|].
  apply tidily_bind; [intros s; now split|]. intros [processes|].
  - apply walk_tidy.
  - apply tidily_fatal. left. simpl. tauto.
Qed.

End Tidy.

(** The command lines that [main] accepts. *)
Lemma good_usage argv :
  bad_usage argv = false ->
  exists program p, argv = [program; purpose_arg p].
Proof.
  unfold bad_usage. intros H. apply Bool.orb_false_iff in H as [Hlen Harg].
  apply Bool.negb_false_iff in Hlen, Harg. apply Nat.eqb_eq in Hlen.
  destruct argv as [|program [|arg [|more argv]]]; try discriminate.
  simpl in Harg. apply Bool.orb_true_iff in Harg as [Harg|Harg];
    apply String.eqb_eq in Harg; subst arg.
  - now exists program, Username.
  - now exists program, Password.
Qed.

Lemma fatal_cases {A} message terminal s :
  (terminal <> None
   /\ @fatal A message terminal s =
      Exited (-1)
        {| keychain := keychain s; stdout := stdout s;
           stderr := stderr s ++ "fatal: " ++ message ++ nl; calls := calls s;
           pid_reads := pid_reads s; prompts := prompts s |})
  \/ (terminal = None /\ @fatal A message terminal s = Undefined s).
Proof.
  destruct terminal as [[]|]; [left | right]; (split; [|reflexivity]);
    [discriminate | reflexivity].
Qed.



(** ** The resolver on a hit, and what it calls *)

Lemma resolve_lookup {terminal} w p repository s :
  repository_of w = Some repository ->
  exists k,
    resolve w terminal p s =
    bind (find_keychain_item w terminal repository (wants_secret p)) k
      (log (Popen config_command) s)
    /\ forall item, k (Some item) = ret (field p item).
Proof.
  intros Hrepo.
  exists (fun item =>
            match item with
            | Some item => ret (field p item)
            | None =>
                match p with
                | Username =>
                    username <- prompt w "Username: " ;;
                    password <- prompt w "Password: " ;;
                    create_keychain_item w terminal repository username password ;;;
                    ret (Some username)
                | Password =>
                    password <- prompt w "Password: " ;;
                    create_keychain_item w terminal repository EmptyString password ;;;
                    ret (Some password)
                end
            end).
  split; [|reflexivity].
  rewrite (resolve_unfold _ _ _ _ Hrepo). now destruct p.
Qed.

(** X14: a lookup without fault that finds an item for the key.
    Resolving Username returns the account of the first such item and
    asks the keychain for the attributes only, not for the secret;
    resolving Password returns the secret of that item.  Either way
    nothing is asked on the terminal, nothing is written to it, and the
    keychain is left as it was. *)
Theorem resolve_hit {terminal} w p repository s it :
  repository_of w = Some repository ->
  injected w FindGenericPassword = None ->
  injected w AttributeInfoForItemID = None ->
  injected w ItemCopyAttributesAndData = None ->
  first_of_service repository (keychain s) = Some it ->
  exists s',
    resolve w terminal p s =
    Returned
      (match p with
       | Username => account_of (item_attr it) None
       | Password => Some (item_data it)
       end) s'
    /\ calls s' =
       (calls s ++
        [Popen config_command; SecFind repository; SecAttributeInfo;
         SecCopy (wants_secret p)])%list
    /\ keychain s' = keychain s
    /\ prompts s' = prompts s
    /\ stdout s' = stdout s /\ stderr s' = stderr s.
Proof.
  intros Hrepo Hfind Hinfo Hcopy Hit.
  destruct (resolve_lookup (terminal := terminal) w p repository s Hrepo)
    as (k & -> & Hk).
  rewrite (bind_returned _ _ _ _ _
             (find_hit w repository (wants_secret p)
                (log (Popen config_command) s) it Hfind Hinfo Hcopy Hit)).
  rewrite Hk. eexists. split.
  - destruct p; reflexivity.
  - simpl. rewrite <- !app_assoc. now repeat split.
Qed.

Lemma resolve_hit_witness :
  exists s',
    resolve git_world opened Username
      (start [new_item "https://example.com/" "alice" "s3cret"]) =
    Returned (Some "alice") s'
    /\ calls s' =
       [Popen config_command; SecFind "https://example.com/";
        SecAttributeInfo; SecCopy false]
    /\ prompts s' = 0.
Proof.
  destruct (resolve_hit (terminal := opened) git_world Username
              "https://example.com/"
              (start [new_item "https://example.com/" "alice" "s3cret"])
              (new_item "https://example.com/" "alice" "s3cret")
              eq_refl eq_refl eq_refl eq_refl eq_refl)
    as (s' & Hrun & Hcalls & _ & Hp & _).
  exists s'. repeat split; assumption.
Defined.



Lemma stopped_finished {A} (o : outcome A) s s' :
  stopped o s -> finished o = Some s' -> s' = s.
Proof. intros [[status ->]| ->]; simpl; congruence. Qed.

Lemma git_origin_url_none {terminal} w s :
  repository_of w = None ->
  exists s1,
    stopped (git_origin_url w terminal s) s1
    /\ calls s1 = (calls s ++ [Popen config_command])%list
    /\ keychain s1 = keychain s.
Proof.
  unfold repository_of, git_origin_url, git_config, bind, popen.
  change ("git config " ++ "remote.origin.url") with config_command.
  assert (Hfatal : forall message,
             exists s1,
               stopped
                 (@fatal string message terminal
                    (log (Popen config_command) s)) s1
               /\ calls s1 = (calls s ++ [Popen config_command])%list
               /\ keychain s1 = keychain s).
  { intros message.
    destruct (fatal_stops (A := string) message terminal
                (log (Popen config_command) s)) as (s1 & Hstop & Hc & Hk & _).
    exists s1. now repeat split. }
  destruct (os_popen w config_command) as [[output status]|].
  - destruct (status =? 0)%Z; cbn [negb].
    + destruct (fgets 1024 output) as [line|].
      * destruct (trim_trailing_whitespace line); [discriminate|]. intros _.
        eexists. split; [right; reflexivity | now split].
      * intros _. eexists. split; [right; reflexivity | now split].
    + intros _. apply Hfatal.
  - intros _. apply Hfatal.
Qed.

(** What a lookup that finds the item calls, exactly. *)
Lemma find_found_calls {terminal} w repository include_password s :
  find_status w repository (keychain s) = 0%Z ->
  exists s1,
    keychain s1 = keychain s
    /\ ((stopped (find_keychain_item w terminal repository include_password s)
           s1
         /\ (calls s1 =
             (calls s ++ [SecFind repository; SecAttributeInfo])%list
             \/ calls s1 =
                (calls s ++ [SecFind repository; SecAttributeInfo;
                             SecCopy include_password])%list))
        \/ (exists it,
               find_keychain_item w terminal repository include_password s =
               Returned (Some it) s1
               /\ calls s1 =
                  (calls s ++ [SecFind repository; SecAttributeInfo;
                               SecCopy include_password])%list)).
Proof.
  intros Hstatus. unfold find_keychain_item.
  destruct (find_reports w repository s) as (item & Hrun & Hzero).
  rewrite (bind_returned _ _ _ _ _ Hrun), Hstatus.
  destruct (Hzero Hstatus) as (_ & _ & Hitem).
  destruct item as [item|]; [clear Hitem | congruence].
  change (0 =? errSecSuccess)%Z with true. cbv iota.
  rewrite (bind_returned _ _ _ _ _ (attribute_info_reports w _)).
  destruct (injected w AttributeInfoForItemID) as [st|] eqn:Einfo.
  { apply injected_nonzero in Einfo.
    destruct (security_stops (terminal := terminal) w st
                (log SecAttributeInfo (log (SecFind repository) s)) Einfo)
      as (s1 & Hstop & Hc & Hk & _).
    exists s1. split; [exact Hk|]. left. split; [now apply bind_stopped|].
    left. rewrite Hc. simpl. now rewrite <- app_assoc. }
  rewrite (bind_returned _ _ _ _ _
             (eq_refl : security w terminal errSecSuccess _ = _)).
  rewrite (bind_returned _ _ _ _ _ (copy_reports w _ _ _)).
  destruct (injected w ItemCopyAttributesAndData) as [st|] eqn:Ecopy.
  { apply injected_nonzero in Ecopy.
    destruct (security_stops (terminal := terminal) w st
                (log (SecCopy include_password)
                   (log SecAttributeInfo (log (SecFind repository) s))) Ecopy)
      as (s1 & Hstop & Hc & Hk & _).
    exists s1. split; [exact Hk|]. left. split; [now apply bind_stopped|].
    right. rewrite Hc. simpl. now rewrite <- !app_assoc. }
  eexists. split; [|right; eexists; split; [reflexivity|]].
  - reflexivity.
  - simpl. now rewrite <- !app_assoc.
Qed.

(** On a miss, a store of [prompt] that finds no room ends the run
    there: it neither returns nor exits. *)
Lemma resolve_miss_without_room {terminal} w p repository s :
  repository_of w = Some repository ->
  find_status w repository (keychain s) = errSecItemNotFound ->
  rooms w p (prompts s) = false ->
  finished (resolve w terminal p s) = None.
Proof.
  intros Hrepo Hstatus Hroom.
  rewrite (resolve_unfold _ _ _ _ Hrepo).
  erewrite bind_returned by (apply find_missing; exact Hstatus).
  cbv beta iota.
  destruct p; simpl in Hroom.
  - destruct (room w (os_getpass w (prompts s))) eqn:Hu.
    + rewrite (bind_returned _ _ _ _ _
                 (prompt_returns w "Username: "
                    (log (SecFind repository) (log (Popen config_command) s))
                    Hu)).
      simpl in Hroom.
      now rewrite (bind_undefined _ _ _ _
                     (prompt_undefined w "Password: "
                        (asking "Username: "
                           (log (SecFind repository)
                              (log (Popen config_command) s)))
                        Hroom)).
    + now rewrite (bind_undefined _ _ _ _
                     (prompt_undefined w "Username: "
                        (log (SecFind repository)
                           (log (Popen config_command) s))
                        Hu)).
  - now rewrite (bind_undefined _ _ _ _
                   (prompt_undefined w "Password: "
                      (log (SecFind repository) (log (Popen config_command) s))
                      Hroom)).
Qed.

(** Every way in which a run of the resolver can return or exit: its
    calls after the [popen], and what became of the keychain. *)
Lemma resolve_shape {terminal} w p s s' :
  finished (resolve w terminal p s) = Some s' ->
  exists l,
    calls s' = (calls s ++ Popen config_command :: l)%list
    /\ resolver_calls p l
    /\ (keychain s' = keychain s
        \/ (existsb is_create_call l = true
            /\ (keychain s' = (keychain s ++ sec_concurrent w)%list
                \/ exists repository username secret,
                    repository_of w = Some repository
                    /\ keychain s' =
                       (keychain s ++ sec_concurrent w ++
                        [new_item repository username secret])%list))).
Proof.
  intros Hfinal.
  destruct (repository_of w) as [repository|] eqn:Hrepo.
  2:{ destruct (git_origin_url_none (terminal := terminal) w s Hrepo)
        as (s1 & Hrun & Hcalls & Hkc).
      destruct (resolve_starts_with_config (terminal := terminal) w p s)
        as [k Hk].
      rewrite Hk in Hfinal.
      apply (stopped_finished _ _ _ (bind_stopped _ k _ _ Hrun)) in Hfinal.
      subst s'.
      exists []; (split; [exact Hcalls|]); (split; [now left | now left]). }
  destruct (Z.eq_dec (find_status w repository (keychain s)) errSecItemNotFound)
    as [Hnf|Hnf].
  { destruct (rooms w p (prompts s)) eqn:Hroom.
    2:{ rewrite (resolve_miss_without_room _ _ _ _ Hrepo Hnf Hroom) in Hfinal.
        discriminate. }
    destruct (resolve_miss_outcome (terminal := terminal) w p repository s
                Hrepo Hnf Hroom)
      as (s1 & Hrun & Hcalls & Hkc & _).
    assert (Hs : calls s' = calls s1 /\ keychain s' = keychain s1).
    { rewrite Hrun in Hfinal. destruct (_ =? 0)%Z.
      - simpl in Hfinal. injection Hfinal as <-. now split.
      - match type of Hfinal with
        | finished (@fatal ?A ?m terminal s1) = _ =>
            destruct (@fatal_stops A m terminal s1)
              as (s2 & Hstop & Hc2 & Hk2 & _)
        end.
        apply (stopped_finished _ _ _ Hstop) in Hfinal. subst s'.
        now split. }
    destruct Hs as [Hs1 Hs2]. rewrite Hs1, Hs2.
    eexists. split; [exact Hcalls|]. split.
    - right. exists repository. do 3 right. now do 2 eexists.
    - right. split.
      + cbn [existsb is_create_call]. rewrite existsb_app.
        simpl. now rewrite Bool.orb_true_r.
      + rewrite Hkc. destruct (_ =? 0)%Z; [right | now left].
        now do 3 eexists. }
  destruct (resolve_lookup (terminal := terminal) w p repository s Hrepo)
    as (k & Hk & Hhit).
  rewrite Hk in Hfinal.
  destruct (Z.eq_dec (find_status w repository (keychain s)) 0) as [H0|H0].
  - destruct (find_found_calls (terminal := terminal) w repository
                (wants_secret p) (log (Popen config_command) s) H0)
      as (s1 & Hkc & [(Hrun & Hcalls)|(it & Hrun & Hcalls)]).
    + apply (stopped_finished _ _ _ (bind_stopped _ k _ _ Hrun)) in Hfinal.
      subst s'.
      destruct Hcalls as [Hcalls|Hcalls]; simpl in Hcalls;
        rewrite <- app_assoc in Hcalls;
        (eexists; split; [exact Hcalls|]; split; [|now left]);
        right; exists repository; [right; now left | do 2 right; now left].
    + rewrite (bind_returned _ _ _ _ _ Hrun), Hhit in Hfinal.
      simpl in Hfinal. injection Hfinal as <-.
      simpl in Hcalls. rewrite <- app_assoc in Hcalls.
      eexists. split; [exact Hcalls|]. split; [|now left].
      right. exists repository. do 2 right. now left.
  - unfold bind at 1 in Hfinal.
    rewrite (find_failing w repository _ (log (Popen config_command) s))
      in Hfinal by assumption.
    match type of Hfinal with
    | finished (match @fatal ?A ?m terminal ?s0 with _ => _ end) = _ =>
        destruct (@fatal_stops A m terminal s0) as (s2 & Hstop & Hc2 & Hk2 & _)
    end.
    destruct Hstop as [[status Hstop]|Hstop]; rewrite Hstop in Hfinal;
      simpl in Hfinal; [|discriminate].
    injection Hfinal as <-. simpl in Hc2, Hk2.
    exists [SecFind repository]. rewrite Hc2, <- app_assoc.
    split; [reflexivity|]. split; [|now left].
    right. exists repository. now left.
Qed.

(** X16: the calls of the resolver in a run that returns or exits: one
    [popen] for the remote URL; then nothing more, or one lookup; after
    the lookup nothing more, or the one or two calls that fetch the
    attributes of the item found, or the prompts of the purpose
    followed by one create.  So such a run looks the key up at most
    once, asks nothing when the item is found, creates at most once,
    and its create is its last call: nothing is read back. *)
Theorem resolve_calls {terminal} w p s s' :
  finished (resolve w terminal p s) = Some s' ->
  exists l,
    calls s' = (calls s ++ Popen config_command :: l)%list
    /\ resolver_calls p l.
Proof.
  intros H.
  destruct (resolve_shape (terminal := terminal) w p s s' H)
    as (l & Hl & Hshape & _).
  now exists l.
Qed.

Example resolve_race_run :
  resolve race_world opened Username (start []) =
  Exited (-1)
    {| keychain := [new_item "https://example.com/" "alice" "hunter2"];
       stdout := EmptyString;
       stderr := "fatal: The specified item already exists in the keychain."
                 ++ nl;
       calls := [Popen config_command; SecFind "https://example.com/";
                 Getpass "Username: "; Getpass "Password: ";
                 SecCreate (new_attributes "https://example.com/" "alice")
                   "s3cret"];
       pid_reads := 0; prompts := 2 |}.
Proof. reflexivity. Qed.

Lemma resolve_calls_witness :
  exists s' l,
    resolve race_world opened Username (start []) = Exited (-1) s'
    /\ calls s' = Popen config_command :: l
    /\ resolver_calls Username l.
Proof.
  assert (H := resolve_race_run).
  destruct (resolve_calls (terminal := opened) race_world Username (start []) _
              (f_equal finished H))
    as (l & Hl & Hs).
  eexists. exists l. split; [exact H|]. split; [exact Hl | exact Hs].
Defined.

(** ** What a run leaves in the keychain *)

Lemma print_after_resolve {terminal} w p s1 s' :
  finished ((value <- resolve w terminal p ;; printf value ;;; ret 0%Z) s1) =
  Some s' ->
  exists s2,
    finished (resolve w terminal p s1) = Some s2 /\ keychain s' = keychain s2.
Proof.
  unfold bind at 1.
  destruct (resolve w terminal p s1) as [[value|] s2|st s2|s2|]; simpl;
    try discriminate; intros [= <-]; eauto.
Qed.

(** X17: a run of [main] never removes an item from the keychain and
    never changes one.  When it returns or exits, the keychain is as it
    was at the start, or it holds in addition what other processes
    added up to the create, or it holds that and, last, one new item,
    which is filed under the key of the remote. *)
Theorem main_keychain w fuel argv kc s' :
  finished (main w fuel argv (start kc)) = Some s' ->
  keychain s' = kc
  \/ keychain s' = (kc ++ sec_concurrent w)%list
  \/ exists repository username secret,
      repository_of w = Some repository
      /\ keychain s' =
         (kc ++ sec_concurrent w ++
          [new_item repository username secret])%list.
Proof.
  rewrite main_unfold.
  assert (Hf := is_git_calling_us_frame (terminal := os_fdopen w) w fuel
                  (start kc)).
  destruct (is_git_calling_us w (os_fdopen w) fuel (start kc))
    as [[|] s1|st s1|s1|] eqn:Hrun; simpl in Hf.
  - rewrite (bind_returned _ _ _ _ _ Hrun). cbn [negb].
    destruct Hf as [(Hk & _) _]. simpl in Hk.
    destruct (bad_usage argv) eqn:Husage.
    { rewrite (dispatch_bad_usage _ _ _ Husage).
      destruct (fatal_cases (A := Z) "can only be used by git" (os_fdopen w) s1)
        as [[_ ->]|[_ ->]]; [|discriminate].
      intros [= <-]. now left. }
    destruct (good_usage _ Husage) as (program & p & ->).
    rewrite dispatch_resolve. intros Hfinal.
    destruct (print_after_resolve _ _ _ _ Hfinal) as (s2 & Hres & ->).
    destruct (resolve_shape _ _ _ _ Hres) as (l & _ & _ & Hkc).
    rewrite Hk in Hkc.
    destruct Hkc as [Hkc|[_ [Hkc|Hkc]]]; auto.
  - rewrite (bind_returned _ _ _ _ _ Hrun). cbn [negb].
    destruct Hf as [(Hk & _) _].
    destruct (fatal_cases (A := Z) "can only be used by git" (os_fdopen w) s1)
      as [[_ ->]|[_ ->]]; [|discriminate].
    intros [= <-]. now left.
  - rewrite (bind_exited _ _ _ _ _ Hrun).
    destruct Hf as [(Hk & _) _]. intros [= <-]. now left.
  - rewrite (bind_undefined _ _ _ _ Hrun). discriminate.
  - unfold bind. rewrite Hrun. discriminate.
Qed.

Lemma main_keychain_witness :
  exists s' repository username secret,
    finished (main git_world 3 ["git-password"; "Username: "] (start [])) =
    Some s'
    /\ keychain s' =
       ([] ++ sec_concurrent git_world ++
        [new_item repository username secret])%list.
Proof.
  assert (H := f_equal finished main_username_first).
  destruct (main_keychain git_world 3 ["git-password"; "Username: "] [] _ H)
    as [Hk|[Hk|(repository & username & secret & _ & Hk)]];
    [discriminate | discriminate |].
  eexists. exists repository, username, secret. split; [exact H | exact Hk].
Defined.

(** ** A bound on the walk *)

Lemma climb_add processes a :
  forall b x,
    climb processes (a + b) x =
    match climb processes a x with
    | Some y => climb processes b y
    | None => None
    end.
Proof.
  induction a as [|a IH]; intros b x; [reflexivity|].
  cbn [Nat.add climb]. destruct (stops x); [reflexivity|].
  destruct (table_parent processes x); [apply IH | reflexivity].
Qed.

(** A table whose links lead out has no pid that is its own ancestor. *)
Lemma climb_no_cycle processes x :
  reaches_end processes x ->
  forall k, climb processes (S k) x <> Some x.
Proof.
  induction 1 as [| | x Habsent | x ppid Hlink Hend IH]; intros k;
    cbn [climb].
  - discriminate.
  - discriminate.
  - rewrite Habsent. now destruct (stops x).
  - rewrite Hlink. destruct (stops x) eqn:Hstop; [discriminate|].
    intros Hback. apply (IH k).
    replace (S k) with (k + 1) by lia.
    rewrite climb_add, Hback. cbn [climb]. now rewrite Hstop, Hlink.
Qed.

Lemma table_parent_in processes pid ppid :
  table_parent processes pid = Some ppid ->
  In pid (map (fun entry => p_pid (kp_proc entry)) processes).
Proof.
  induction processes as [|entry rest IH]; [discriminate|].
  cbn [table_parent map In].
  destruct (Z.eqb_spec pid (p_pid (kp_proc entry))); [now left|].
  intros H. right. now apply IH.
Qed.

Lemma trail_climb processes n :
  forall x q,
    climb processes n x = Some q ->
    List.length (trail processes n x) = n
    /\ forall y,
        In y (trail processes n x) ->
        (exists k, k < n /\ climb processes k x = Some y)
        /\ In y (map (fun entry => p_pid (kp_proc entry)) processes).
Proof.
  induction n as [|n IH]; intros x q Hq.
  - split; [reflexivity | intros y []].
  - cbn [climb] in Hq. cbn [trail].
    destruct (stops x) eqn:Hstop; [discriminate|].
    destruct (table_parent processes x) as [ppid|] eqn:Hlink; [|discriminate].
    destruct (IH _ _ Hq) as [Hlen Hin]. split.
    + simpl. now rewrite Hlen.
    + intros y [<-|Hy].
      * split; [exists 0; split; [lia | reflexivity]|].
        eapply table_parent_in, Hlink.
      * destruct (Hin y Hy) as [(k & Hk & Hclimb) Htable].
        split; [|exact Htable].
        exists (S k). split; [lia|].
        cbn [climb]. now rewrite Hstop, Hlink.
Qed.

Lemma trail_nodup processes :
  (forall pid, reaches_end processes pid) ->
  forall n x q,
    climb processes n x = Some q -> NoDup (trail processes n x).
Proof.
  intros Hends. induction n as [|n IH]; intros x q Hq; [constructor|].
  cbn [climb] in Hq. cbn [trail].
  destruct (stops x) eqn:Hstop; [discriminate|].
  destruct (table_parent processes x) as [ppid|] eqn:Hlink; [|discriminate].
  constructor; [|eapply IH, Hq].
  intros Hin.
  destruct (proj2 (trail_climb _ _ _ _ Hq) x Hin) as [(k & _ & Hclimb) _].
  apply (climb_no_cycle processes x (Hends x) k).
  cbn [climb]. now rewrite Hstop, Hlink.
Qed.

Lemma climb_bound processes :
  (forall pid, reaches_end processes pid) ->
  forall n x q,
    climb processes n x = Some q -> n <= List.length processes.
Proof.
  intros Hends n x q Hq.
  destruct (trail_climb _ _ _ _ Hq) as [Hlen Hin].
  rewrite <- Hlen,
    <- (length_map (fun entry => p_pid (kp_proc entry)) processes).
  apply NoDup_incl_length; [eapply trail_nodup; eassumption|].
  intros y Hy. now apply Hin.
Qed.

(** A walk that is short of fuel has followed as many links of the
    table as it had fuel. *)
Lemma walk_out_of_fuel {terminal} w processes :
  (forall n pid info ppid,
      os_proc_pid w n pid = Some info ->
      table_parent processes pid = Some ppid ->
      e_ppid (kp_eproc info) = ppid) ->
  forall fuel pid s,
    walk w terminal fuel processes pid s = OutOfFuel ->
    exists q, climb processes fuel pid = Some q.
Proof.
  intros Hagree. induction fuel as [|fuel IH]; intros pid s H.
  - now exists pid.
  - rewrite walk_S in H. cbn [climb].
    destruct (stops pid); [discriminate|].
    destruct (scan processes pid) as [process|] eqn:Hscan; [|discriminate].
    destruct (os_proc_pid w (pid_reads s) pid) as [info|] eqn:Hread;
      [|by_terminal].
    destruct (streq (p_comm process) "git"); [discriminate|].
    destruct (scan_some_parent _ _ _ Hscan) as [ppid Hlink].
    rewrite Hlink. rewrite (Hagree _ _ _ _ Hread Hlink) in H.
    eapply IH, H.
Qed.

(** X18: a bound on the loop.  When the parent relation of the table
    read at the start has no cycle and every read of the loop that
    succeeds reports the parent that this table records, the loop body
    runs at most once per entry of the table, and one more test ends
    the walk: the verifier ends with any fuel above the number of
    entries. *)
Theorem is_git_calling_us_within_table {terminal} w processes s fuel :
  os_proc_all w = Some processes ->
  (forall pid, reaches_end processes pid) ->
  (forall n pid info ppid,
      os_proc_pid w n pid = Some info ->
      table_parent processes pid = Some ppid ->
      e_ppid (kp_eproc info) = ppid) ->
  List.length processes < fuel ->
  is_git_calling_us w terminal fuel s <> OutOfFuel.
Proof.
  intros Hall Hends Hagree Hfuel.
  destruct (os_proc_all_size w) eqn:Hsize.
  - rewrite (is_git_calling_us_walk _ _ processes) by assumption.
    intros Hout.
    destruct (walk_out_of_fuel w processes Hagree _ _ _ Hout) as [q Hq].
    apply (climb_bound processes Hends) in Hq. lia.
  - unfold is_git_calling_us, bind, getppid, sysctl_proc_all_size.
    rewrite Hsize. apply fatal_ends.
Qed.

Lemma git_table_ends pid : reaches_end git_table pid.
Proof.
  assert (H1 : reaches_end git_table 1) by apply end_root.
  assert (H20 : reaches_end git_table 20)
    by (apply (end_link _ 20%Z 1%Z); [reflexivity | exact H1]).
  destruct (Z.eqb_spec pid 1) as [->|N1]; [exact H1|].
  destruct (Z.eqb_spec pid 20) as [->|N20]; [exact H20|].
  destruct (Z.eqb_spec pid 10) as [->|N10].
  { apply (end_link _ 10%Z 20%Z); [reflexivity | exact H20]. }
  apply end_absent. simpl.
  apply Z.eqb_neq in N1, N20, N10. now rewrite N1, N20, N10.
Qed.

Lemma git_world_agrees n pid info ppid :
  os_proc_pid git_world n pid = Some info ->
  table_parent git_table pid = Some ppid ->
  e_ppid (kp_eproc info) = ppid.
Proof.
  simpl.
  destruct (pid =? 1)%Z; [intros [= <-] [= <-]; reflexivity|].
  destruct (pid =? 20)%Z; [intros [= <-] [= <-]; reflexivity|].
  destruct (pid =? 10)%Z; [intros [= <-] [= <-]; reflexivity|].
  discriminate.
Qed.

Lemma is_git_calling_us_within_table_witness :
  is_git_calling_us git_world opened 4 (start []) <> OutOfFuel.
Proof.
  apply (is_git_calling_us_within_table git_world git_table);
    [reflexivity | apply git_table_ends | apply git_world_agrees
    | simpl; lia].
Defined.

(** ** The calls of the verifier *)

Lemma walk_calls {terminal} w processes fuel :
  forall pid s s',
    final (walk w terminal fuel processes pid s) = Some s' ->
    exists pids,
      calls s' = (calls s ++ map SysctlProcPid pids)%list
      /\ pid_reads s' = pid_reads s + List.length pids
      /\ List.length pids <= fuel
      /\ Forall (fun q => stops q = false /\ scan processes q <> None) pids.
Proof.
  assert (Hnone : forall s : state,
             calls s = (calls s ++ map SysctlProcPid [])%list
             /\ pid_reads s = pid_reads s + List.length (@nil Z)
             /\ Forall (fun q => stops q = false /\ scan processes q <> None)
                  []).
  { intros s. simpl. rewrite app_nil_r, Nat.add_0_r. repeat split.
    constructor. }
  assert (Hone : forall pid s,
             stops pid = false -> scan processes pid <> None ->
             (calls s ++ [SysctlProcPid pid])%list =
             (calls s ++ map SysctlProcPid [pid])%list
             /\ S (pid_reads s) = pid_reads s + List.length [pid]
             /\ Forall (fun q => stops q = false /\ scan processes q <> None)
                  [pid]).
  { intros pid s Hstop Hscan. simpl. repeat split; [lia|].
    constructor; [now split | constructor]. }
  induction fuel as [|fuel IH]; intros pid s s'.
  - rewrite walk_O. destruct (stops pid); [|discriminate].
    intros [= <-]. exists []. destruct (Hnone s) as (? & ? & ?).
    repeat split; auto.
  - rewrite walk_S.
    destruct (stops pid) eqn:Hstop.
    { intros [= <-]. exists []. destruct (Hnone s) as (? & ? & ?).
      repeat split; auto; simpl; lia. }
    destruct (scan processes pid) as [process|] eqn:Hscan.
    2:{ intros [= <-]. exists []. destruct (Hnone s) as (? & ? & ?).
        repeat split; auto; simpl; lia. }
    assert (Hpresent : scan processes pid <> None) by congruence.
    destruct (Hone pid s Hstop Hpresent) as (Hc1 & Hr1 & Hf1).
    destruct (os_proc_pid w (pid_reads s) pid) as [info|].
    + destruct (streq (p_comm process) "git").
      * intros [= <-]. exists [pid]. simpl in *.
        repeat split; auto; lia.
      * intros Hfinal. destruct (IH _ _ _ Hfinal) as (pids & Hc & Hr & Hl & Hf).
        exists (pid :: pids). simpl in *. rewrite Hc, <- app_assoc.
        repeat split; [lia | lia |].
        constructor; [now split | exact Hf].
    + intros Hfinal. exists [pid].
      destruct terminal as [[]|]; simpl in Hfinal; injection Hfinal as <-;
        simpl in *; repeat split; auto; lia.
Qed.

(** X20: what the verifier calls.  It asks for the parent pid, then
    reads the whole process table once, in two [sysctl] calls; if the
    first of the two fails it stops there.  Every call after that is a
    read of one pid, one per turn of the loop, for a pid that is
    neither 0 nor 1 and has an entry in the table.  It calls nothing
    else: the keychain, the terminal prompt and standard output are
    left alone. *)
Theorem is_git_calling_us_calls {terminal} w fuel s s' :
  final (is_git_calling_us w terminal fuel s) = Some s' ->
  keychain s' = keychain s /\ stdout s' = stdout s /\ prompts s' = prompts s
  /\ ((os_proc_all_size w = false
       /\ calls s' = (calls s ++ [Getppid; SysctlProcAll false])%list
       /\ pid_reads s' = pid_reads s)
      \/ exists pids,
          calls s' =
          (calls s ++ Getppid :: SysctlProcAll false :: SysctlProcAll true ::
           map SysctlProcPid pids)%list
          /\ pid_reads s' = pid_reads s + List.length pids
          /\ List.length pids <= fuel
          /\ forall processes,
              os_proc_all w = Some processes ->
              Forall (fun q => stops q = false /\ scan processes q <> None)
                pids).
Proof.
  intros Hfinal.
  assert (Hf := is_git_calling_us_frame (terminal := terminal) w fuel s).
  assert (Hquiet : quiet s s').
  { destruct (is_git_calling_us w terminal fuel s) as [b s1|st s1|s1|];
      simpl in Hf, Hfinal; try contradiction; try discriminate;
      injection Hfinal as <-; tauto. }
  destruct Hquiet as (Hk & Ho & Hp & _). repeat split; try assumption.
  clear Hf. revert Hfinal.
  unfold is_git_calling_us, bind, getppid, sysctl_proc_all_size,
    sysctl_proc_all.
  destruct (os_proc_all_size w) eqn:Hsize; cbn [negb].
  - destruct (os_proc_all w) as [processes|] eqn:Hall.
    + fold (after_snapshot s). intros Hfinal.
      destruct (walk_calls _ _ _ _ _ _ Hfinal) as (pids & Hc & Hr & Hl & Hf).
      right. exists pids. simpl in Hc, Hr. rewrite Hc, <- !app_assoc.
      repeat split; [exact Hr | exact Hl |].
      now intros processes' [= <-].
    + intros Hfinal. right. exists [].
      destruct terminal as [[]|]; simpl in Hfinal; injection Hfinal as <-;
        simpl; rewrite <- !app_assoc, Nat.add_0_r;
        (repeat split; [lia|]); discriminate.
  - intros Hfinal. left.
    destruct terminal as [[]|]; simpl in Hfinal; injection Hfinal as <-;
      simpl; rewrite <- !app_assoc; now repeat split.
Qed.

Lemma is_git_calling_us_calls_witness :
  exists s' pids,
    is_git_calling_us git_world opened 3 (start []) = Returned true s'
    /\ calls s' =
       Getppid :: SysctlProcAll false :: SysctlProcAll true ::
       map SysctlProcPid pids
    /\ List.length pids <= 3.
Proof.
  assert (H : is_git_calling_us git_world opened 3 (start []) =
              Returned true
                {| keychain := []; stdout := EmptyString;
                   stderr := EmptyString;
                   calls := [Getppid; SysctlProcAll false; SysctlProcAll true;
                             SysctlProcPid 10; SysctlProcPid 20];
                   pid_reads := 2; prompts := 0 |}) by reflexivity.
  destruct (is_git_calling_us_calls (terminal := opened) git_world 3 (start [])
              _ (f_equal final H))
    as (_ & _ & _ & [(Hsize & _)|(pids & Hc & _ & Hl & _)]);
    [discriminate|].
  eexists. exists pids. split; [exact H|]. split; [exact Hc | exact Hl].
Defined.

(** ** A run without a terminal *)

(** X21: [main] does not test what [fdopen] returns.  When that is
    [NULL], no run of the program exits: wherever it would leave
    through [fatal], it first hands [NULL] to [fputs], and its
    behaviour is undefined from there, with nothing written.  So a
    caller that is not git gets no refusal; still, up to that point the
    run has called neither the keychain nor the prompt. *)
Theorem main_without_terminal w fuel argv kc :
  os_fdopen w = None ->
  (forall status s', main w fuel argv (start kc) <> Exited status s')
  /\ (forall s1,
         is_git_calling_us w None fuel (start kc) = Returned false s1 ->
         main w fuel argv (start kc) = Undefined s1
         /\ stderr s1 = EmptyString /\ stdout s1 = EmptyString
         /\ keychain s1 = kc
         /\ existsb is_store_call (calls s1) = false
         /\ existsb is_prompt_call (calls s1) = false).
Proof.
  intros Hnull.
  assert (Hv := is_git_calling_us_tidy w (os_fdopen w) fuel (start kc)).
  assert (Hf := is_git_calling_us_frame (terminal := os_fdopen w) w fuel
                  (start kc)).
  rewrite main_unfold. rewrite Hnull in *.
  destruct (is_git_calling_us w None fuel (start kc)) as [[|] s1|st s1|s1|]
    eqn:Hrun; simpl in Hv, Hf.
  - rewrite (bind_returned _ _ _ _ _ Hrun). cbn [negb].
    split; [|discriminate].
    intros status s'. destruct (bad_usage argv) eqn:Husage.
    { rewrite (dispatch_bad_usage _ _ _ Husage), fatal_null. discriminate. }
    destruct (good_usage _ Husage) as (program & p & ->).
    rewrite dispatch_resolve.
    assert (Hr := resolve_tidy w None p s1).
    unfold bind at 1.
    destruct (resolve w None p s1) as [[value|] s2|st s2|s2|]; simpl in Hr;
      simpl; try discriminate.
    destruct Hr as (_ & Hopen & _). congruence.
  - rewrite (bind_returned _ _ _ _ _ Hrun). cbn [negb]. rewrite fatal_null.
    split; [discriminate|]. intros s1' [= <-].
    destruct Hf as [(Hk & Ho & _ & l & Hl & Htrust) He].
    simpl in Hk, Ho, Hl, He. subst l.
    destruct (trust_calls_only _ Htrust) as [Hstore Hprompt].
    repeat split; assumption.
  - destruct Hv as (_ & Hopen & _). congruence.
  - rewrite (bind_undefined _ _ _ _ Hrun). split; discriminate.
  - unfold bind. rewrite Hrun. split; discriminate.
Qed.

Lemma main_without_terminal_witness :
  exists s1,
    main (with_fdopen cron_world None) 3 ["git-password"; "Password: "]
      (start []) = Undefined s1
    /\ stderr s1 = EmptyString.
Proof.
  destruct (main_without_terminal (with_fdopen cron_world None) 3
              ["git-password"; "Password: "] [] eq_refl) as [_ Hfalse].
  destruct (Hfalse _ eq_refl) as (Hrun & Herr & _).
  eexists. split; [exact Hrun | exact Herr].
Defined.

(** ** The store of [prompt] *)



